(** * JoystickGremlin: mode hierarchy of a profile

    A shallow embedding of the mode management code of
    [gremlin/ui_dialogs.py] (class [ModeManagerUi]) and of the mode
    switching commands used by [doc/manual/examples/mode_switching.py],
    together with the properties of the mode inheritance graph.

    Python dictionaries keyed by mode name are finite maps ([gmap string]);
    the dictionary of devices is only ever traversed in insertion order
    ([.values()], [.items()], [list(...)[0]]) and is a list.  Mutation of
    the shared profile object is explicit state passing: every operation
    returns the profile it leaves behind, also when it raises. *)

From stdpp Require Import gmap strings list fin_maps relations sorting.
From Stdlib Require Import QArith.
From Stdlib Require OrderedTypeEx.

Local Open Scope string_scope.

(** ** Exceptions and user feedback *)

(** The two Python exceptions the dictionary and list accesses can raise. *)
Inductive exn : Type :=
  | KeyError (key : string)
  | IndexError.

(** What a dialog callback lets the outside world observe. *)
Inductive feedback : Type :=
  | modes_changed                 (* self.modes_changed.emit() *)
  | display_error (name : string) (* util.display_error("A mode with the name ... already exists") *)
  | no_feedback                   (* returned without emitting anything *)
  | raised (e : exn).             (* left through an exception *)

Section ModeGraph.

(** Per-mode, per-device bindings ([Mode.config]); the mode manager never
    looks inside them. *)
Context {Config : Type}.
Variable empty_config : Config.

(** ** Data model *)

Record Mode : Type := mkMode {
  name : string;
  inherit : option string;
  config : Config
}.

Record Device : Type := mkDevice {
  hardware_id : Z;
  modes : gmap string Mode
}.

Record Profile : Type := mkProfile {
  devices : list Device
}.

Definition set_name (n : string) (md : Mode) : Mode :=
  mkMode n (inherit md) (config md).

Definition set_inherit (v : option string) (md : Mode) : Mode :=
  mkMode (name md) v (config md).

Definition set_modes (ms : gmap string Mode) (d : Device) : Device :=
  mkDevice (hardware_id d) ms.

(** Modelled from the spec: [profile.Mode] (the constructor is not part of
    the sources at hand): a mode is created with [inherit = none]; the
    caller assigns its name right away. *)
Definition new_Mode (n : string) : Mode := mkMode n None empty_config.

(** Modelled from the spec: [util.mode_list] (not part of the sources at
    hand): the names that exist as a mode for any device. *)
Definition mode_list (p : Profile) : gset string :=
  ⋃ ((λ d, dom (modes d)) <$> devices p).

(** [for device in self._profile.devices.values(): body(device)] where the
    body either replaces the device's state or raises before touching it.
    Devices already visited keep their new state when a later one raises. *)
Fixpoint for_each_device (body : Device → exn + Device) (ds : list Device)
  : option exn * list Device :=
  match ds with
  | [] => (None, [])
  | d :: rest =>
      match body d with
      | inl e => (Some e, d :: rest)
      | inr d' =>
          let '(r, rest') := for_each_device body rest in (r, d' :: rest')
      end
  end.

Definition finish (r : option exn * list Device) : feedback * Profile :=
  match r with
  | (Some e, ds) => (raised e, mkProfile ds)
  | (None, ds) => (modes_changed, mkProfile ds)
  end.

(** ** [ModeManagerUi._change_mode_inheritance] *)

(** The [while] loop of the cycle check.  [fuel] bounds the number of times
    the loop condition is evaluated; [None] means the loop is still running
    when the fuel is spent. *)
Fixpoint cycle_walk (fuel : nat) (all_modes : gmap string Mode)
    (mode cur_mode : string) : option (exn + bool) :=
  match fuel with
  | O => None
  | S fuel' =>
      match all_modes !! cur_mode with
      | None => Some (inl (KeyError cur_mode))
      | Some md =>
          match inherit md with
          | None => Some (inr false)
          | Some parent =>
              if decide (parent = mode) then Some (inr true)
              else cycle_walk fuel' all_modes mode parent
          end
      end
  end.

Definition has_inheritance_cycle (fuel : nat) (p : Profile)
    (mode inherit_name : string) : option (exn + bool) :=
  if decide (inherit_name = "None") then Some (inr false)
  else match devices p with
       | [] => Some (inl IndexError)
       | d0 :: _ => cycle_walk fuel (modes d0) mode inherit_name
       end.

(** [device.modes[mode].inherit = inherit] *)
Definition change_inherit_body (mode : string) (v : option string)
    (d : Device) : exn + Device :=
  match modes d !! mode with
  | None => inl (KeyError mode)
  | Some md => inr (set_modes (<[mode := set_inherit v md]> (modes d)) d)
  end.

Definition _change_mode_inheritance (fuel : nat) (mode inherit_name : string)
    (p : Profile) : option (feedback * Profile) :=
  match has_inheritance_cycle fuel p mode inherit_name with
  | None => None
  | Some (inl e) => Some (raised e, p)
  | Some (inr true) => Some (no_feedback, p)
  | Some (inr false) =>
      let v := if decide (inherit_name = "None") then None
               else Some inherit_name in
      Some (finish (for_each_device (change_inherit_body mode v) (devices p)))
  end.

(** ** [ModeManagerUi._rename_mode] *)

Definition rewrite_inherit (old : string) (v : option string) (md : Mode) : Mode :=
  if decide (inherit md = Some old) then set_inherit v md else md.

(** One round of the device loop: move the mode object to its new key,
    rename it, drop the old key, then update every mode that inherits from
    the old name. *)
Definition rename_body (mode_name new_name : string) (d : Device)
    : exn + Device :=
  match modes d !! mode_name with
  | None => inl (KeyError mode_name)
  | Some md =>
      let moved := delete mode_name (<[new_name := set_name new_name md]> (modes d)) in
      inr (set_modes (rewrite_inherit mode_name (Some new_name) <$> moved) d)
  end.

(** [dialog] is what [QInputDialog.getText] returns: the text and whether
    the user confirmed. *)
Definition _rename_mode (dialog : string * bool) (mode_name : string)
    (p : Profile) : feedback * Profile :=
  let '(new_name, user_input) := dialog in
  if user_input then
    if decide (new_name ∈ mode_list p) then (display_error new_name, p)
    else finish (for_each_device (rename_body mode_name new_name) (devices p))
  else (no_feedback, p).

(** ** [ModeManagerUi._delete_mode] *)

(** The first loop: the last mode of the first device whose [name] field is
    [mode_name] decides.  A [gmap] does not record the insertion order of
    the Python dict, so when several modes of the device carry the name
    [mode_name] the fold below need not pick the one the Python loop visits
    last.  When every mode is stored under its own name ([keyed], as
    [_add_mode_cb] and [_rename_mode] leave it) at most one mode matches and
    the fold is the loop: [parent_of_deleted_keyed].  Every statement below
    that depends on the parent chosen here assumes [keyed] for the first
    device. *)
Definition parent_of_deleted (ms : gmap string Mode) (mode_name : string)
    : option string :=
  map_fold (λ _ md acc, if decide (name md = mode_name) then inherit md else acc)
           None ms.

Definition reassign_body (mode_name : string) (parent : option string)
    (d : Device) : Device :=
  set_modes (rewrite_inherit mode_name parent <$> modes d) d.

(** [del device.modes[mode_name]] *)
Definition delete_body (mode_name : string) (d : Device) : exn + Device :=
  match modes d !! mode_name with
  | None => inl (KeyError mode_name)
  | Some _ => inr (set_modes (delete mode_name (modes d)) d)
  end.

Definition _delete_mode (mode_name : string) (p : Profile)
    : feedback * Profile :=
  match devices p with
  | [] => (raised IndexError, p)
  | d0 :: _ =>
      let parent := parent_of_deleted (modes d0) mode_name in
      let reassigned := reassign_body mode_name parent <$> devices p in
      finish (for_each_device (delete_body mode_name) reassigned)
  end.

(** ** [ModeManagerUi._add_mode_cb] *)

Definition add_body (new_name : string) (d : Device) : exn + Device :=
  inr (set_modes (<[new_name := new_Mode new_name]> (modes d)) d).

Definition _add_mode_cb (dialog : string * bool) (p : Profile)
    : feedback * Profile :=
  let '(new_name, user_input) := dialog in
  if user_input then
    if decide (new_name ∈ mode_list p) then (display_error new_name, p)
    else finish (for_each_device (add_body new_name) (devices p))
  else (no_feedback, p).

(** ** One device after a complete round of each loop *)

Definition changed (mode : string) (v : option string) (d : Device) : Device :=
  match modes d !! mode with
  | Some md => set_modes (<[mode := set_inherit v md]> (modes d)) d
  | None => d
  end.

Definition renamed (old new : string) (d : Device) : Device :=
  match modes d !! old with
  | Some md =>
      set_modes (rewrite_inherit old (Some new) <$>
                   delete old (<[new := set_name new md]> (modes d))) d
  | None => d
  end.

Definition removed (old : string) (v : option string) (d : Device) : Device :=
  set_modes (delete old (rewrite_inherit old v <$> modes d)) d.

Definition added (new : string) (d : Device) : Device :=
  set_modes (<[new := new_Mode new]> (modes d)) d.

(** ** The operations of the spec's Mode Graph, as the dialog performs them *)

Inductive graph_op : Type :=
  | add_mode (dialog : string * bool)
  | rename_mode (mode_name : string) (dialog : string * bool)
  | delete_mode (mode_name : string).

Definition apply_op (p : Profile) (o : graph_op) : Profile :=
  match o with
  | add_mode dialog => snd (_add_mode_cb dialog p)
  | rename_mode mode_name dialog => snd (_rename_mode dialog mode_name p)
  | delete_mode mode_name => snd (_delete_mode mode_name p)
  end.

Definition apply_ops (ops : list graph_op) (p : Profile) : Profile :=
  fold_left apply_op ops p.

(** Modelled from the spec: [resolve_chain(device, mode_name)] (not part of
    the sources at hand): the mode names starting at [mode_name] and
    following [inherit] until a root is reached.  [fuel] bounds the number
    of modes looked at. *)
Fixpoint resolve_chain (fuel : nat) (ms : gmap string Mode)
    (mode_name : string) : option (exn + list string) :=
  match fuel with
  | O => None
  | S fuel' =>
      match ms !! mode_name with
      | None => Some (inl (KeyError mode_name))
      | Some md =>
          match inherit md with
          | None => Some (inr [mode_name])
          | Some parent =>
              match resolve_chain fuel' ms parent with
              | Some (inr chain) => Some (inr (mode_name :: chain))
              | r => r
              end
          end
      end
  end.

(** ** Invariants of the data model *)

(** The inheritance pointers of a device, by mode name. *)
Definition inherit_table (d : Device) : gmap string (option string) :=
  inherit <$> modes d.

(** Every mode object is stored under its own name. *)
Definition keyed (ms : gmap string Mode) : Prop :=
  map_Forall (λ k md, name md = k) ms.

End ModeGraph.

Arguments Mode : clear implicits.
Arguments Device : clear implicits.
Arguments Profile : clear implicits.
Arguments graph_op : clear implicits.

(** An edge of the inheritance graph: [x] inherits from [y]. *)
Definition parent_of (t : gmap string (option string)) (x y : string) : Prop :=
  t !! x = Some (Some y).

Definition acyclic (t : gmap string (option string)) : Prop :=
  ∀ x, ¬ tc (parent_of t) x x.

Definition closed (t : gmap string (option string)) : Prop :=
  ∀ x y, parent_of t x y → is_Some (t !! y).

Definition valid_device {Config} (d : Device Config) : Prop :=
  keyed (modes d) ∧ closed (inherit_table d) ∧ acyclic (inherit_table d).

(** All devices carry the same mode names with the same inheritance. *)
Definition mirrored {Config} (p : Profile Config) : Prop :=
  ∀ d1 d2, d1 ∈ devices p → d2 ∈ devices p →
    inherit_table d1 = inherit_table d2.

Definition valid_profile {Config} (p : Profile Config) : Prop :=
  mirrored p ∧ Forall valid_device (devices p).

(** [chain_of t x chain]: [chain] lists [x], its parent, its grandparent and
    so on, and ends at a root. *)
Inductive chain_of (t : gmap string (option string))
    : string → list string → Prop :=
  | chain_root x : t !! x = Some None → chain_of t x [x]
  | chain_step x y rest :
      t !! x = Some (Some y) → chain_of t y rest → chain_of t x (x :: rest).

(** What the rewriting loops of rename and delete do to one pointer. *)
Definition rewrite_pointer (old : string) (v x : option string)
    : option string :=
  if decide (x = Some old) then v else x.

(** A mode name as it reads after renaming [old] to [new]. *)
Definition rename_name (old new x : string) : string :=
  if decide (x = old) then new else x.

(** *** Executable checks for the invariants *)

Fixpoint reaches_root (fuel : nat) (t : gmap string (option string))
    (x : string) : bool :=
  match fuel with
  | O => false
  | S fuel' =>
      match t !! x with
      | None => false
      | Some None => true
      | Some (Some y) => reaches_root fuel' t y
      end
  end.

Definition rooted (t : gmap string (option string)) : bool :=
  bool_decide (map_Forall (λ k _, reaches_root (size t) t k = true) t).

Definition check_device {Config} (d : Device Config) : bool :=
  bool_decide (keyed (modes d)) && rooted (inherit_table d).

Definition check_profile {Config} (p : Profile Config) : bool :=
  forallb check_device (devices p) &&
  match devices p with
  | [] => true
  | d0 :: rest =>
      forallb (λ d, bool_decide (inherit_table d = inherit_table d0)) rest
  end.

(** ** Mode switch controller *)

Module ControlAction.

Inductive error : Type :=
  | NotFoundError
  | InvalidArgumentError.

Record state : Type := mkState {
  known_modes : gset string;
  active_mode : string;
  previous_mode : option string
}.

(** Modelled from the spec: [gremlin.control_action.switch_mode] (only its
    callers are part of the sources at hand): fails with [NotFoundError]
    if the name is unknown; otherwise sets [previous_mode = active_mode],
    [active_mode = name]. *)
Definition switch_mode (name : string) (s : state) : error + state :=
  if decide (name ∈ known_modes s)
  then inr (mkState (known_modes s) name (Some (active_mode s)))
  else inl NotFoundError.

(** Modelled from the spec: [gremlin.control_action.switch_to_previous_mode]
    (only its callers are part of the sources at hand): swaps
    [active_mode] and [previous_mode]; no-op if [previous_mode] is unset. *)
Definition switch_to_previous_mode (s : state) : state :=
  match previous_mode s with
  | None => s
  | Some prev => mkState (known_modes s) prev (Some (active_mode s))
  end.

(** The name following the first occurrence of [cur] in [l], or [first]
    when that occurrence is the last element. *)
Fixpoint next_name (first : string) (l : list string) (cur : string)
    : option string :=
  match l with
  | [] => None
  | x :: rest =>
      if decide (x = cur) then Some (hd first rest)
      else next_name first rest cur
  end.

(** Modelled from the spec: [gremlin.control_action.cycle_modes] (only its
    callers are part of the sources at hand): fails with
    [InvalidArgumentError] if [active_mode] is not a member of the list;
    otherwise advances to the next name, wrapping to the first after the
    last. *)
Definition cycle_modes (ordered_names : list string) (s : state)
    : error + state :=
  match next_name (hd "" ordered_names) ordered_names (active_mode s) with
  | None => inl InvalidArgumentError
  | Some n => inr (mkState (known_modes s) n (previous_mode s))
  end.

End ControlAction.

(** ** Calibration transform *)

Module Calibration.

(** Clamp to the nearest bound of [[minimum, maximum]]. *)
Definition clamp (value minimum maximum : Z) : Z :=
  Z.min maximum (Z.max minimum value).

(** The linear map of [value] relative to [center] over a half-range of
    width [width]; undefined for an empty half-range. *)
Definition half_range (value center width : Z) : option Q :=
  if decide (width = 0%Z) then None
  else Some (inject_Z (value - center) / inject_Z width)%Q.

(** Modelled from the spec: [normalize(raw, minimum, center, maximum)]
    (not part of the sources at hand): clamp to [[minimum, maximum]], then
    below [center] map [[minimum, center]] linearly to [[-1, 0]], at or
    above [center] map [[center, maximum]] linearly to [[0, 1]].  Values
    are exact rationals. *)
Definition normalize (raw minimum center maximum : Z) : option Q :=
  let value := clamp raw minimum maximum in
  if decide (value < center)%Z
  then half_range value center (center - minimum)
  else half_range value center (maximum - center).

End Calibration.

(** ** Python lists *)

(** [l[i]] for a Python list: a negative index counts from the end; [None]
    stands for [IndexError]. *)
Definition py_index {A} (l : list A) (i : Z) : option nat :=
  let n := Z.of_nat (length l) in
  if decide (0 ≤ i < n)%Z then Some (Z.to_nat i)
  else if decide (- n ≤ i < 0)%Z then Some (Z.to_nat (n + i))
  else None.

Definition py_getitem {A} (l : list A) (i : Z) : option A :=
  py_index l i ≫= (l !!.).

(** [del l[i]] *)
Definition py_delitem {A} (l : list A) (i : Z) : option (list A) :=
  (λ n, delete n l) <$> py_index l i.

(** [sorted(l)] on strings.  Python compares strings by code point, which on
    the bytes of their UTF-8 encoding is the byte-wise lexicographic
    order. *)
Definition string_le (a b : string) : Prop := String.leb a b = true.

#[global] Instance string_le_dec : RelDecision string_le :=
  λ a b, decide (String.leb a b = true).

Definition sorted (l : list string) : list string := merge_sort string_le l.

(** ** [ModeManagerUi._populate_mode_layout] *)

(** One round of the outer loop: every mode of the device whose name is not
    yet in [mode_list] is entered with its parent. *)
Definition collect_modes {Config} (mode_list : gmap string (option string))
    (ms : gmap string (Mode Config)) : gmap string (option string) :=
  map_fold (λ _ md acc,
              if decide (is_Some (acc !! name md)) then acc
              else <[name md := inherit md]> acc)
           mode_list ms.

Definition layout_mode_list {Config} (p : Profile Config)
    : gmap string (option string) :=
  fold_left collect_modes (modes <$> devices p) ∅.

(** The entries of the inheritance drop-down of [mode]. *)
Definition dropdown_items (mode_list : gmap string (option string))
    (mode : string) : list string :=
  "None" :: filter (λ n, n ≠ mode) (sorted (map_to_list mode_list).*1).

(** ** [ModuleManagerUi] *)

Module ModuleManagerUi.

(** The string list shown by the view and the import list of the profile. *)
Record state : Type := mkState {
  stringList : list string;
  imports : list string
}.

Definition _create_ui (profile_imports : list string) : state :=
  mkState (sorted profile_imports) profile_imports.

(** [dialog] is the text and the confirmation of [QInputDialog.getText];
    [valid_python_identifier] stands for the function of [util] of that
    name, which is not part of the sources at hand. *)
Definition _add_cb (valid_python_identifier : string → bool)
    (dialog : string * bool) (s : state) : feedback * state :=
  let '(new_import, input_ok) := dialog in
  if input_ok && bool_decide (new_import ≠ "") then
    if negb (valid_python_identifier new_import)
    then (display_error new_import, s)
    else
      let import_list := (stringList s ++ [new_import])%list in
      (no_feedback, mkState (sorted import_list) import_list)
  else (no_feedback, s).

(** [index] is the row of the view's current index, -1 without a
    selection. *)
Definition _delete_cb (index : Z) (s : state) : feedback * state :=
  let import_list := stringList s in
  if decide (0 ≤ index ≤ Z.of_nat (length import_list))%Z then
    match py_delitem import_list index with
    | None => (raised IndexError, s)
    | Some import_list' => (no_feedback, mkState import_list' import_list')
    end
  else (no_feedback, s).

(** The view shows the imports of the profile, sorted. *)
Definition in_sync (s : state) : Prop :=
  StronglySorted string_le (stringList s) ∧ stringList s ≡ₚ imports s.

End ModuleManagerUi.

(** ** [CalibrationUi] *)

Module CalibrationUi.

Section Widgets.

(** The axis widgets ([widgets.AxisCalibrationWidget]) and the kinds of
    events ([event_handler.InputType]) are declared outside the sources at
    hand. *)
Context {Widget InputType : Type} `{EqDecision InputType}.
Variable JoystickAxis : InputType.
Variable new_widget : Widget.
Variable set_current : Z → Widget → Widget.
Variable centered : Widget → Widget.

(** A physical device; [device_id] is what [util.device_id] returns for
    it. *)
Record joystick : Type := mkJoystick {
  device_id : Z;
  axes_count : Z
}.

(** An event; [event_device_id] is what [util.device_id] returns for it. *)
Record event : Type := mkEvent {
  event_device_id : Z;
  event_type : InputType;
  identifier : Z;
  raw_value : Z
}.

Record state : Type := mkState {
  devices : list joystick;
  current_selection_id : Z;
  axes : list Widget
}.

Definition _create_axes (index : Z) (s : state) : option exn * state :=
  let s' := mkState (devices s) index [] in
  match py_getitem (devices s) index with
  | None => (Some IndexError, s')
  | Some dev =>
      (None, mkState (devices s) index
               (replicate (Z.to_nat (axes_count dev)) new_widget))
  end.

Definition _handle_event (ev : event) (s : state) : option exn * state :=
  match py_getitem (devices s) (current_selection_id s) with
  | None => (Some IndexError, s)
  | Some dev =>
      if bool_decide (event_device_id ev = device_id dev)
         && bool_decide (event_type ev = JoystickAxis)
      then
        match py_index (axes s) (identifier ev - 1) with
        | None => (Some IndexError, s)
        | Some n =>
            (None, mkState (devices s) (current_selection_id s)
                     (alter (set_current (raw_value ev)) n (axes s)))
        end
      else (None, s)
  end.

Definition _calibrate_centers (s : state) : state :=
  mkState (devices s) (current_selection_id s) (centered <$> axes s).

(** An event the dialog listens to: an axis event of the device [dev]. *)
Definition concerns (dev : joystick) (ev : event) : Prop :=
  event_device_id ev = device_id dev ∧ event_type ev = JoystickAxis.

#[global] Instance concerns_dec dev ev : Decision (concerns dev ev).
Proof. unfold concerns. apply _. Defined.

(** The events of a session, handled one after the other until one
    raises. *)
Fixpoint handle_events (evs : list event) (s : state) : option exn * state :=
  match evs with
  | [] => (None, s)
  | ev :: rest =>
      match _handle_event ev s with
      | (Some e, s') => (Some e, s')
      | (None, s') => handle_events rest s'
      end
  end.

End Widgets.

End CalibrationUi.

(** ** [JoystickSelector] *)

Module JoystickSelector.

(** The members of [profile.UiInputType] that the selector names. *)
Inductive UiInputType : Type :=
  | JoystickAxis
  | JoystickButton
  | JoystickHat
  | Keyboard.

Definition type_to_name_map (t : UiInputType) : string :=
  match t with
  | JoystickAxis => "Axis"
  | JoystickButton => "Button"
  | JoystickHat => "Hat"
  | Keyboard => "Button"
  end.

(** A device as the selector sees it; [device_id] is what [util.device_id]
    returns for it. *)
Record device : Type := mkDevice {
  windows_id : Z;
  device_id : Z
}.

(** [sorted(self.devices, key=lambda x: x.windows_id)]: a stable sort. *)
Fixpoint insert_by_windows_id (d : device) (l : list device) : list device :=
  match l with
  | [] => [d]
  | x :: rest =>
      if decide (windows_id d ≤ windows_id x)%Z then d :: x :: rest
      else x :: insert_by_windows_id d rest
  end.

Definition sorted_by_windows_id (devices : list device) : list device :=
  foldr insert_by_windows_id [] devices.

(** The loop at the end of [__init__], filling [_device_id_to_index_map]
    and [_index_to_device_id_map]. *)
Definition index_maps (devices : list device) : gmap Z nat * gmap nat Z :=
  fold_left (λ maps entry,
               (<[device_id entry.2 := entry.1]> maps.1,
                <[entry.1 := device_id entry.2]> maps.2))
            (imap pair (sorted_by_windows_id devices)) (∅, ∅).

Section Widgets.

(** The combo boxes of the selector, and what lines 726 to 737 of
    [set_selection] do to them for the device index, the name of the input
    type and the input id. *)
Context {Widgets : Type}.
Variable show_input : nat → string → Z → Widgets → Widgets.

Record selector : Type := mkSelector {
  _device_id_to_index_map : gmap Z nat;
  _index_to_device_id_map : gmap nat Z;
  widgets : Widgets
}.

Definition __init__ (devices : list device) (w : Widgets) : selector :=
  mkSelector (index_maps devices).1 (index_maps devices).2 w.

Definition set_selection (input_type : UiInputType) (device : option Z)
    (input_id : Z) (s : selector) : selector :=
  let dev_id :=
    match device with
    | Some id =>
        if decide (id ≠ 0%Z) then default 0%nat (_device_id_to_index_map s !! id)
        else 0%nat
    | None => 0%nat
    end in
  if decide (dev_id = 0%nat) then s
  else mkSelector (_device_id_to_index_map s) (_index_to_device_id_map s)
         (show_input dev_id (type_to_name_map input_type) input_id
                     (widgets s)).

End Widgets.

End JoystickSelector.

(** ** Example profiles *)

Module Examples.

Definition mode (n : string) (parent : option string) : Mode unit :=
  mkMode n parent tt.

(** Two devices with the modes of the manual: [radio] and [landing]
    inherit from [Global]. *)
Definition manual_modes : gmap string (Mode unit) :=
  <["Global" := mode "Global" None]>
    (<["radio" := mode "radio" (Some "Global")]>
       {["landing" := mode "landing" (Some "radio")]}).

Definition manual_profile : Profile unit :=
  mkProfile [mkDevice 2382820288 manual_modes; mkDevice 1 manual_modes].

(** Two sibling modes below [Global]. *)
Definition sibling_modes : gmap string (Mode unit) :=
  <["Global" := mode "Global" None]>
    (<["radio" := mode "radio" (Some "Global")]>
       {["landing" := mode "landing" (Some "Global")]}).

Definition sibling_profile : Profile unit :=
  mkProfile [mkDevice 2382820288 sibling_modes; mkDevice 1 sibling_modes].

(** A profile in which the user has called one mode [None]. *)
Definition none_modes : gmap string (Mode unit) :=
  <["None" := mode "None" None]>
    (<["B" := mode "B" (Some "C")]> {["C" := mode "C" None]}).

Definition none_profile : Profile unit :=
  mkProfile [mkDevice 1 none_modes; mkDevice 2 none_modes].

(** Two devices that disagree on the inheritance of their modes. *)
Definition skewed_profile : Profile unit :=
  mkProfile
    [mkDevice 1 (<["M" := mode "M" (Some "X")]> {["X" := mode "X" None]});
     mkDevice 2 (<["M" := mode "M" None]> {["X" := mode "X" (Some "M")]})].

(** The first device has [radio], the second does not. *)
Definition ragged_profile : Profile unit :=
  mkProfile [mkDevice 1 manual_modes;
             mkDevice 2 {["Global" := mode "Global" None]}].

End Examples.

(** * Properties *)

(** ** The device loop *)

Section DeviceLoop.
Context {Config : Type}.
Implicit Types (d : Device Config) (ds : list (Device Config)).

Lemma for_each_device_total (body : Device Config → exn + Device Config)
    (g : Device Config → Device Config) ds :
  (∀ d, d ∈ ds → body d = inr (g d)) →
  for_each_device body ds = (None, g <$> ds).
Proof.
  induction ds as [|d ds IH]; intros Hbody; simpl; [done|].
  rewrite (Hbody d) by apply list_elem_of_here.
  rewrite IH; [done|].
  intros d' Hd'. apply Hbody. by apply list_elem_of_further.
Qed.

Lemma for_each_device_raises_first
    (body : Device Config → exn + Device Config) d ds e :
  body d = inl e → for_each_device body (d :: ds) = (Some e, d :: ds).
Proof. intros Hbody. simpl. by rewrite Hbody. Qed.

Lemma mode_list_spec (p : Profile Config) n :
  n ∈ mode_list p ↔ ∃ d, d ∈ devices p ∧ is_Some (modes d !! n).
Proof.
  unfold mode_list. rewrite elem_of_union_list. split.
  - intros (X & HX & Hn). apply list_elem_of_fmap in HX as (d & -> & Hd).
    exists d. split; [done|]. by apply elem_of_dom.
  - intros (d & Hd & Hn). exists (dom (modes d)). split.
    + apply list_elem_of_fmap. by exists d.
    + by apply elem_of_dom.
Qed.

End DeviceLoop.

(** ** Inheritance tables of the devices an operation leaves behind *)

Section Tables.
Context {Config : Type}.
Implicit Types (d : Device Config) (md : Mode Config)
  (ms : gmap string (Mode Config)).

Lemma inherit_table_lookup d x :
  inherit_table d !! x = inherit <$> (modes d !! x).
Proof. unfold inherit_table. by rewrite lookup_fmap. Qed.

Lemma inherit_rewrite_inherit old v md :
  inherit (rewrite_inherit old v md) = rewrite_pointer old v (inherit md).
Proof.
  unfold rewrite_inherit, rewrite_pointer. by case_decide.
Qed.

Lemma name_rewrite_inherit old v md :
  name (rewrite_inherit old v md) = name md.
Proof. unfold rewrite_inherit. by case_decide. Qed.

Lemma inherit_table_rewrite old v ms d :
  inherit_table (set_modes (rewrite_inherit old v <$> ms) d)
  = rewrite_pointer old v <$> (inherit <$> ms).
Proof.
  unfold inherit_table. simpl. rewrite <- !map_fmap_compose.
  apply map_fmap_ext. intros ? md _. simpl. apply inherit_rewrite_inherit.
Qed.

Lemma inherit_table_add (empty_config : Config) n d :
  inherit_table (set_modes (<[n := new_Mode empty_config n]> (modes d)) d)
  = <[n := None]> (inherit_table d).
Proof. unfold inherit_table. simpl. by rewrite fmap_insert. Qed.

Lemma inherit_table_change mode v md d :
  inherit_table (set_modes (<[mode := set_inherit v md]> (modes d)) d)
  = <[mode := v]> (inherit_table d).
Proof. unfold inherit_table. simpl. by rewrite fmap_insert. Qed.

Lemma inherit_table_rename old new md d :
  inherit_table
    (set_modes (rewrite_inherit old (Some new) <$>
                  delete old (<[new := set_name new md]> (modes d))) d)
  = rewrite_pointer old (Some new) <$>
      delete old (<[new := inherit md]> (inherit_table d)).
Proof.
  rewrite inherit_table_rewrite. f_equal.
  unfold inherit_table. by rewrite fmap_delete, fmap_insert.
Qed.

Lemma inherit_table_delete old v d :
  inherit_table
    (set_modes (delete old (modes (reassign_body old v d)))
               (reassign_body old v d))
  = delete old (rewrite_pointer old v <$> inherit_table d).
Proof.
  unfold inherit_table, reassign_body. simpl.
  rewrite fmap_delete. f_equal. rewrite <- !map_fmap_compose.
  apply map_fmap_ext. intros ? md _. simpl. apply inherit_rewrite_inherit.
Qed.

(** Under the naming invariant the first loop of [_delete_mode] finds the
    parent of the mode stored under [mode_name]. *)
Lemma parent_of_deleted_keyed ms mode_name :
  keyed ms →
  parent_of_deleted ms mode_name = (ms !! mode_name) ≫= inherit.
Proof.
  unfold parent_of_deleted, keyed.
  apply (map_fold_weak_ind (λ r (m : gmap string (Mode Config)),
    map_Forall (λ k md, name md = k) m → r = (m !! mode_name) ≫= inherit)).
  - intros _. by rewrite lookup_empty.
  - intros k md m r Hk IH Hall.
    apply map_Forall_insert in Hall as [Hname Hrest]; [|done].
    specialize (IH Hrest). case_decide as Heq.
    + subst. by rewrite lookup_insert_eq.
    + rewrite lookup_insert_ne by congruence. done.
Qed.

End Tables.

(** ** The inheritance graph as a table of pointers *)

Section Graph.
Implicit Types (t : gmap string (option string)) (x y : string).

Lemma tc_flatten {A} (R : relation A) a b : tc (tc R) a b → tc R a b.
Proof. induction 1; eauto using tc_trans. Qed.

(** A graph whose edges map to paths of an acyclic graph is acyclic. *)
Lemma acyclic_simulation t t' (f : string → string) :
  (∀ x y, parent_of t' x y → tc (parent_of t) (f x) (f y)) →
  acyclic t → acyclic t'.
Proof.
  intros Hsim Hac x Hx. apply (Hac (f x)), tc_flatten.
  by apply (tc_congruence f (tc (parent_of t)) x x Hsim).
Qed.

Lemma acyclic_no_self_loop t x : acyclic t → t !! x ≠ Some (Some x).
Proof. intros Hac Hx. apply (Hac x). by apply tc_once. Qed.

(** *** A new root *)

Lemma closed_add_root t n : closed t → closed (<[n := None]> t).
Proof.
  intros Hcl x y. unfold parent_of. rewrite lookup_insert.
  case_decide; [done|]. intros Hxy. rewrite lookup_insert.
  case_decide; [by eexists|]. by apply (Hcl x).
Qed.

Lemma acyclic_add_root t n : acyclic t → acyclic (<[n := None]> t).
Proof.
  apply (acyclic_simulation t _ id). intros x y. unfold parent_of.
  rewrite lookup_insert. case_decide; [done|]. intros. by apply tc_once.
Qed.

(** *** Renaming a node *)

Lemma lookup_renamed t old new i k :
  old ≠ new →
  (rewrite_pointer old (Some new) <$> delete old (<[new := i]> t)) !! k
  = if decide (k = old) then None
    else if decide (k = new) then Some (rewrite_pointer old (Some new) i)
    else rewrite_pointer old (Some new) <$> t !! k.
Proof.
  intros Hne. rewrite lookup_fmap, lookup_delete.
  destruct (decide (old = k)) as [->|Hk].
  - by rewrite decide_True.
  - rewrite decide_False by congruence. rewrite lookup_insert.
    destruct (decide (new = k)) as [->|Hk'].
    + by rewrite decide_True.
    + by rewrite decide_False by congruence.
Qed.

Lemma closed_no_pointer_to t x v :
  closed t → t !! x = None → t !! v ≠ Some (Some x).
Proof.
  intros Hcl Hx Hv. destruct (Hcl v x Hv) as [? ?]. congruence.
Qed.

Lemma closed_rename t old new i :
  t !! old = Some i → t !! new = None → closed t →
  closed (rewrite_pointer old (Some new) <$> delete old (<[new := i]> t)).
Proof.
  intros Hold Hnew Hcl x y. assert (old ≠ new) as Hne by congruence.
  unfold parent_of. rewrite !lookup_renamed by done.
  assert (∀ w, (∃ z, t !! z = Some w) →
            rewrite_pointer old (Some new) w = Some y →
            y = new ∨ (y ≠ old ∧ is_Some (t !! y))) as Htarget.
  { intros w [z Hz]. unfold rewrite_pointer. case_decide as Hw.
    - intros [= <-]. by left.
    - intros ->. right. split; [congruence|]. by apply (Hcl z). }
  intros Hx.
  assert (y = new ∨ (y ≠ old ∧ is_Some (t !! y))) as [->|[Hy [w Hw]]].
  { repeat case_decide; simplify_eq.
    - apply Htarget with i; eauto.
    - destruct (t !! x) as [w|] eqn:Hw; simplify_eq/=.
      apply Htarget with w; eauto. }
  - rewrite decide_False, decide_True by done. by eexists.
  - rewrite decide_False by done.
    destruct (decide (y = new)); [by eexists|]. rewrite Hw. by eexists.
Qed.

Lemma acyclic_rename t old new i :
  t !! old = Some i → t !! new = None → closed t → acyclic t →
  acyclic (rewrite_pointer old (Some new) <$> delete old (<[new := i]> t)).
Proof.
  intros Hold Hnew Hcl. assert (old ≠ new) as Hne by congruence.
  set (back := λ x, if decide (x = new) then old else x).
  apply (acyclic_simulation t _ back). intros x y. unfold parent_of.
  rewrite lookup_renamed by done. intros Hx. apply tc_once. unfold parent_of.
  assert (∀ z w, t !! z = Some w →
            rewrite_pointer old (Some new) w = Some y →
            t !! z = Some (Some (back y))) as Hedge.
  { intros z w Hz. unfold rewrite_pointer, back.
    destruct (decide (w = Some old)) as [->|Hw].
    - intros [= <-]. by rewrite decide_True.
    - intros ->. rewrite decide_False; [done|].
      intros ->. by apply (closed_no_pointer_to t new z Hcl). }
  unfold back at 1. repeat case_decide; simplify_eq.
  - by apply Hedge with i.
  - destruct (t !! x) as [w|] eqn:Hw; simplify_eq/=.
    rewrite <- Hw. by apply Hedge with w.
Qed.

(** *** Deleting a node and re-parenting its children *)

Lemma lookup_reparented t old v k :
  delete old (rewrite_pointer old v <$> t) !! k
  = if decide (k = old) then None else rewrite_pointer old v <$> t !! k.
Proof.
  rewrite lookup_delete. destruct (decide (old = k)) as [->|Hk].
  - by rewrite decide_True.
  - rewrite decide_False by congruence. by rewrite lookup_fmap.
Qed.

Lemma reparented_edge t old x y :
  closed t →
  parent_of (delete old (rewrite_pointer old (t !! old ≫= id) <$> t)) x y →
  x ≠ old ∧
  (parent_of t x y ∧ y ≠ old ∨ parent_of t x old ∧ parent_of t old y).
Proof.
  intros Hcl. unfold parent_of. rewrite lookup_reparented.
  case_decide; [done|]. destruct (t !! x) as [w|] eqn:Hw; [|done].
  simpl. unfold rewrite_pointer. case_decide as Hwold.
  - subst w. intros [= Hv]. split; [done|]. right. split; [done|].
    destruct (t !! old) as [u|]; simplify_eq/=. done.
  - intros [= ->]. split; [done|]. left. split; [done|]. congruence.
Qed.

Lemma closed_delete t old :
  closed t → acyclic t →
  closed (delete old (rewrite_pointer old (t !! old ≫= id) <$> t)).
Proof.
  intros Hcl Hac x y Hxy.
  apply reparented_edge in Hxy as [Hx [[Hxy Hy]|[Hxo Hoy]]]; [| |done].
  - rewrite lookup_reparented, decide_False by done.
    destruct (Hcl x y Hxy) as [w ->]. by eexists.
  - assert (y ≠ old) as Hy.
    { intros ->. by apply (acyclic_no_self_loop t old). }
    rewrite lookup_reparented, decide_False by done.
    destruct (Hcl old y Hoy) as [w ->]. by eexists.
Qed.

Lemma acyclic_delete t old :
  closed t → acyclic t →
  acyclic (delete old (rewrite_pointer old (t !! old ≫= id) <$> t)).
Proof.
  intros Hcl. apply (acyclic_simulation t _ id). intros x y Hxy.
  apply reparented_edge in Hxy as [Hx [[Hxy Hy]|[Hxo Hoy]]]; [| |done].
  - by apply tc_once.
  - eapply tc_l; [done|]. by apply tc_once.
Qed.

End Graph.

(** ** Inheritance chains *)

Section Chains.
Implicit Types (t : gmap string (option string)) (x y : string)
  (chain : list string).

Lemma chain_of_head t x chain :
  chain_of t x chain → ∃ rest, chain = x :: rest.
Proof. destruct 1; eauto. Qed.

Lemma chain_of_functional t x c1 c2 :
  chain_of t x c1 → chain_of t x c2 → c1 = c2.
Proof.
  intros H1. revert c2. induction H1 as [x Hx|x y rest Hx Hy IH];
    intros c2 H2; destruct H2 as [x Hx'|x y' rest' Hx' Hy']; simplify_eq.
  - done.
  - f_equal. by apply IH.
Qed.

Lemma chain_of_last_root t x chain :
  chain_of t x chain → ∃ r, last chain = Some r ∧ t !! r = Some None.
Proof.
  induction 1 as [x Hx|x y rest Hx Hy (r & Hlast & Hr)].
  - by exists x.
  - exists r. split; [|done].
    destruct (chain_of_head _ _ _ Hy) as [rest' ->]. done.
Qed.

Lemma chain_of_tail_tc t x chain y :
  chain_of t x chain → y ∈ tail chain → tc (parent_of t) x y.
Proof.
  induction 1 as [x Hx|x z rest Hx Hz IH]; simpl; [by intros ?%elem_of_nil|].
  intros Hy. destruct (chain_of_head _ _ _ Hz) as [rest' ->].
  apply elem_of_cons in Hy as [->|Hy].
  - by apply tc_once.
  - eapply tc_l; [done|]. by apply IH.
Qed.

Lemma tc_chain_of_tail t x chain y :
  chain_of t x chain → tc (parent_of t) x y → y ∈ tail chain.
Proof.
  intros Hchain Htc. revert chain Hchain.
  induction Htc as [x y Hxy|x z y Hxz Hzy IH]; intros chain Hchain;
    destruct Hchain as [x Hx|x z' rest Hx Hz']; unfold parent_of in *;
    simplify_eq; simpl; destruct (chain_of_head _ _ _ Hz') as [rest' ->].
  - apply list_elem_of_here.
  - apply list_elem_of_further. by apply (IH _ Hz').
Qed.

(** In a closed acyclic table every mode has a chain, no longer than the
    table has modes.  [seen] collects the modes already walked through. *)
Lemma chain_exists_from t (n : nat) : closed t → acyclic t →
  ∀ (seen : gset string) x,
    is_Some (t !! x) → seen ⊆ dom t →
    (∀ v, v ∈ seen → tc (parent_of t) v x) →
    (size t ≤ size seen + n)%nat →
    ∃ chain, chain_of t x chain ∧ (length chain + size seen ≤ size t)%nat.
Proof.
  intros Hcl Hac. induction n as [|n IH]; intros seen x Hx Hsub Hseen Hsize.
  all: assert (x ∉ seen) as Hfresh by (intros Hin; by apply (Hac x), Hseen).
  all: assert (size ({[x]} ∪ seen) = S (size seen)) as Hgrow
    by (rewrite size_union by set_solver; by rewrite size_singleton).
  all: assert ({[x]} ∪ seen ⊆ dom t) as Hsub'
    by (apply union_subseteq; split; [|done];
        by apply singleton_subseteq_l, elem_of_dom).
  all: pose proof (subseteq_size _ _ Hsub') as Hle;
    rewrite Hgrow, size_dom in Hle.
  - lia.
  - destruct Hx as [[y|] Hx].
    + destruct (IH ({[x]} ∪ seen) y) as (chain & Hchain & Hlen).
      * by apply (Hcl x).
      * done.
      * intros v [->%elem_of_singleton|Hv]%elem_of_union.
        -- by apply tc_once.
        -- eapply tc_r; [by apply Hseen|done].
      * lia.
      * exists (x :: chain). split; [by eapply chain_step|]. simpl. lia.
    + exists [x]. split; [by apply chain_root|]. simpl. lia.
Qed.

Lemma chain_exists t x :
  closed t → acyclic t → is_Some (t !! x) →
  ∃ chain, chain_of t x chain ∧ (length chain ≤ size t)%nat.
Proof.
  intros Hcl Hac Hx.
  destruct (chain_exists_from t (size t) Hcl Hac ∅ x) as (chain & ? & ?).
  - done.
  - set_solver.
  - set_solver.
  - lia.
  - exists chain. split; [done|lia].
Qed.

(** *** The executable check is sound *)

Lemma reaches_root_descends t n x y :
  reaches_root n t x = true → tc (parent_of t) x y →
  ∃ m, (m < n)%nat ∧ reaches_root m t y = true.
Proof.
  intros Hn Htc. revert n Hn.
  induction Htc as [x y Hxy|x z y Hxz Hzy IH]; intros [|n] Hn;
    simpl in Hn; try done; unfold parent_of in *; rewrite ?Hxy, ?Hxz in Hn.
  - exists n. split; [lia|done].
  - destruct (IH n Hn) as (m & Hm & Hy). exists m. split; [lia|done].
Qed.

Lemma reaches_root_no_cycle t n x :
  reaches_root n t x = true → ¬ tc (parent_of t) x x.
Proof.
  revert x. induction (lt_wf n) as [n _ IH]. intros x Hn Htc.
  destruct (reaches_root_descends t n x x Hn Htc) as (m & Hm & Hx).
  by apply (IH m Hm x).
Qed.

Lemma rooted_sound t : rooted t = true → closed t ∧ acyclic t.
Proof.
  unfold rooted. intros Hall%bool_decide_eq_true. split.
  - intros x y Hxy. pose proof (Hall x _ Hxy) as Hx. simpl in Hx.
    destruct (reaches_root_descends t (size t) x y Hx) as (m & _ & Hy).
    { by apply tc_once. }
    destruct m as [|m]; [done|]. simpl in Hy.
    destruct (t !! y); [by eexists|done].
  - intros x Htc. assert (is_Some (t !! x)) as [v Hv].
    { inversion Htc as [? ? Hxy|? ? ? Hxy]; by eexists. }
    apply (reaches_root_no_cycle t (size t) x); [|done]. by apply (Hall x v).
Qed.

End Chains.

(** ** The walks of the code follow the chain *)

Section Walks.
Context {Config : Type}.
Implicit Types (d : Device Config) (ms : gmap string (Mode Config))
  (x y mode : string) (chain : list string).

Lemma lookup_inherit ms x v :
  (inherit <$> ms) !! x = Some v →
  ∃ md, ms !! x = Some md ∧ inherit md = v.
Proof.
  rewrite lookup_fmap. destruct (ms !! x) as [md|]; [|done].
  intros [= <-]. by exists md.
Qed.

Lemma resolve_chain_complete ms x chain fuel :
  chain_of (inherit <$> ms) x chain → (length chain ≤ fuel)%nat →
  resolve_chain fuel ms x = Some (inr chain).
Proof.
  intros Hchain. revert fuel.
  induction Hchain as [x Hx|x y rest Hx Hy IH]; intros [|fuel] Hlen;
    simpl in *; try lia; apply lookup_inherit in Hx as (md & -> & ->).
  - done.
  - rewrite IH by lia. done.
Qed.

Lemma cycle_walk_complete ms mode x chain fuel :
  chain_of (inherit <$> ms) x chain → (length chain ≤ fuel)%nat →
  cycle_walk fuel ms mode x = Some (inr (bool_decide (mode ∈ tail chain))).
Proof.
  intros Hchain. revert fuel.
  induction Hchain as [x Hx|x y rest Hx Hy IH]; intros [|fuel] Hlen;
    simpl in *; try lia; apply lookup_inherit in Hx as (md & -> & ->).
  - done.
  - destruct (chain_of_head _ _ _ Hy) as [rest' ->].
    destruct (decide (y = mode)) as [->|Hy'].
    + rewrite bool_decide_eq_true_2; [done|]. apply list_elem_of_here.
    + rewrite IH by (simpl in *; lia). do 2 f_equal. simpl.
      apply bool_decide_ext. rewrite elem_of_cons.
      split; [by right|]. by intros [?|?]; simplify_eq.
Qed.

Lemma resolve_chain_sound ms x chain fuel :
  resolve_chain fuel ms x = Some (inr chain) →
  chain_of (inherit <$> ms) x chain ∧ (length chain ≤ fuel)%nat.
Proof.
  revert x chain. induction fuel as [|fuel IH]; intros x chain; [done|].
  simpl. destruct (ms !! x) as [md|] eqn:Hx; [|done].
  assert ((inherit <$> ms) !! x = Some (inherit md)) as Hx'
    by (by rewrite lookup_fmap, Hx).
  destruct (inherit md) as [y|].
  - destruct (resolve_chain fuel ms y) as [[e|rest]|] eqn:Hy; try done.
    intros [= <-]. destruct (IH _ _ Hy) as [Hrest Hlen]. split.
    + by eapply chain_step.
    + simpl. lia.
  - intros [= <-]. split; [by apply chain_root|simpl; lia].
Qed.

End Walks.

(** ** What the four dialog operations leave behind *)

Section Operations.
Context {Config : Type}.
Variable empty_config : Config.
Implicit Types (d : Device Config) (ds : list (Device Config))
  (p : Profile Config) (md : Mode Config)
  (ms : gmap string (Mode Config)).

Lemma profile_eta p : mkProfile (devices p) = p.
Proof. by destruct p. Qed.

Lemma has_mode_table d k :
  is_Some (modes d !! k) ↔ is_Some (inherit_table d !! k).
Proof. rewrite inherit_table_lookup. by rewrite fmap_is_Some. Qed.

Lemma mirrored_has_mode p d1 d2 k :
  mirrored p → d1 ∈ devices p → d2 ∈ devices p →
  is_Some (modes d1 !! k) → is_Some (modes d2 !! k).
Proof.
  intros Hmir H1 H2. rewrite !has_mode_table. by rewrite (Hmir d1 d2).
Qed.

(** A device loop whose body only needs the key [k] to be present either
    runs through every device or raises at the very first one, when all
    devices have the same mode names. *)
Lemma loop_all_or_nothing (body : Device Config → exn + Device Config)
    (g : Device Config → Device Config) k ds :
  (∀ d, is_Some (modes d !! k) → body d = inr (g d)) →
  (∀ d, modes d !! k = None → body d = inl (KeyError k)) →
  (∀ d1 d2, d1 ∈ ds → d2 ∈ ds →
     is_Some (modes d1 !! k) → is_Some (modes d2 !! k)) →
  (for_each_device body ds = (None, g <$> ds) ∧
   ∀ d, d ∈ ds → is_Some (modes d !! k)) ∨
  (for_each_device body ds = (Some (KeyError k), ds) ∧
   ∀ d, d ∈ ds → modes d !! k = None).
Proof.
  intros Hsome Hnone Hsame. destruct ds as [|d0 rest].
  { left. split; [done|]. by intros d ?%elem_of_nil. }
  destruct (modes d0 !! k) as [md|] eqn:Hd0.
  - assert (∀ d, d ∈ d0 :: rest → is_Some (modes d !! k)) as Hall.
    { intros d Hd. apply (Hsame d0 d); [apply list_elem_of_here|done|].
      by rewrite Hd0. }
    left. split; [|done]. apply for_each_device_total.
    intros d Hd. by apply Hsome, Hall.
  - right. split; [by apply for_each_device_raises_first, Hnone|].
    intros d Hd. destruct (modes d !! k) eqn:Hdk; [|done].
    destruct (Hsame d d0) as [? ?]; [done|apply list_elem_of_here|by eexists|].
    congruence.
Qed.

Lemma mirrored_fmap p (g : Device Config → Device Config)
    (F : gmap string (option string) → gmap string (option string)) :
  mirrored p →
  (∀ d, d ∈ devices p → inherit_table (g d) = F (inherit_table d)) →
  mirrored (mkProfile (g <$> devices p)).
Proof.
  intros Hmir HF d1' d2'. simpl.
  intros (d1 & -> & H1)%list_elem_of_fmap (d2 & -> & H2)%list_elem_of_fmap.
  rewrite !HF by done. f_equal. by apply Hmir.
Qed.

Lemma valid_fmap p (g : Device Config → Device Config)
    (F : gmap string (option string) → gmap string (option string)) :
  valid_profile p →
  (∀ d, d ∈ devices p → valid_device d →
     inherit_table (g d) = F (inherit_table d) ∧ valid_device (g d)) →
  valid_profile (mkProfile (g <$> devices p)).
Proof.
  intros [Hmir Hall] Hg. rewrite Forall_forall in Hall. split.
  - apply mirrored_fmap with F; [done|]. intros d Hd.
    by apply Hg, Hall.
  - simpl. apply Forall_fmap, Forall_forall. intros d Hd.
    by apply Hg, Hall.
Qed.


(** *** Outcomes *)

Lemma add_outcome new p :
  new ∉ mode_list p →
  _add_mode_cb empty_config (new, true) p
  = (modes_changed, mkProfile (added empty_config new <$> devices p)).
Proof.
  intros Hnew. unfold _add_mode_cb. rewrite decide_False by done.
  by rewrite (for_each_device_total _ (added empty_config new)).
Qed.

Lemma rename_outcome old new p :
  new ∉ mode_list p → mirrored p →
  (_rename_mode (new, true) old p
     = (modes_changed, mkProfile (renamed old new <$> devices p)) ∧
   ∀ d, d ∈ devices p → is_Some (modes d !! old)) ∨
  (_rename_mode (new, true) old p = (raised (KeyError old), p) ∧
   ∀ d, d ∈ devices p → modes d !! old = None).
Proof.
  intros Hnew Hmir. unfold _rename_mode. rewrite decide_False by done.
  destruct (loop_all_or_nothing (rename_body old new) (renamed old new)
              old (devices p)) as [[-> Hall]|[-> Hall]].
  - intros d [md Hmd]. unfold rename_body, renamed. by rewrite Hmd.
  - intros d Hd. unfold rename_body. by rewrite Hd.
  - intros d1 d2 ??. by apply (mirrored_has_mode p).
  - by left.
  - right. simpl. by rewrite profile_eta.
Qed.

Lemma delete_body_reassigned old v d :
  is_Some (modes d !! old) →
  delete_body old (reassign_body old v d) = inr (removed old v d).
Proof.
  intros [md Hmd]. unfold delete_body, reassign_body, removed. simpl.
  by rewrite lookup_fmap, Hmd.
Qed.

Lemma delete_outcome old p d0 rest :
  devices p = d0 :: rest → mirrored p →
  let v := parent_of_deleted (modes d0) old in
  (_delete_mode old p
     = (modes_changed, mkProfile (removed old v <$> devices p)) ∧
   ∀ d, d ∈ devices p → is_Some (modes d !! old)) ∨
  (_delete_mode old p
     = (raised (KeyError old),
        mkProfile (reassign_body old v <$> devices p)) ∧
   ∀ d, d ∈ devices p → modes d !! old = None).
Proof.
  intros Hds Hmir v. unfold _delete_mode. rewrite Hds. fold v.
  rewrite <- Hds.
  destruct (decide (is_Some (modes d0 !! old))) as [Hd0|Hd0].
  - assert (∀ d, d ∈ devices p → is_Some (modes d !! old)) as Hall.
    { intros d Hd. apply (mirrored_has_mode p d0 d); [done| |done|done].
      rewrite Hds. apply list_elem_of_here. }
    left. split; [|done].
    rewrite (for_each_device_total _
               (λ d', set_modes (delete old (modes d')) d')).
    + simpl. by rewrite <- list_fmap_compose.
    + intros d' (d & -> & Hd)%list_elem_of_fmap.
      by rewrite delete_body_reassigned by by apply Hall.
  - assert (∀ d, d ∈ devices p → modes d !! old = None) as Hall.
    { intros d Hd. destruct (modes d !! old) eqn:Hdo; [|done].
      destruct Hd0. apply (mirrored_has_mode p d d0); [done|done| |by eexists].
      rewrite Hds. apply list_elem_of_here. }
    right. split; [|done]. rewrite Hds at 1. simpl.
    unfold delete_body at 1. simpl. rewrite lookup_fmap.
    rewrite (Hall d0) by (rewrite Hds; apply list_elem_of_here). simpl.
    by rewrite Hds.
Qed.

(** *** Tables and naming invariant of the devices left behind *)

Lemma added_table new d :
  inherit_table (added empty_config new d) = <[new := None]> (inherit_table d).
Proof. apply inherit_table_add. Qed.

Lemma changed_table mode v d :
  is_Some (modes d !! mode) →
  inherit_table (changed mode v d) = <[mode := v]> (inherit_table d).
Proof.
  intros [md Hmd]. unfold changed. rewrite Hmd. apply inherit_table_change.
Qed.

Lemma renamed_table old new d :
  inherit_table (renamed old new d)
  = match inherit_table d !! old with
    | Some i => rewrite_pointer old (Some new) <$>
                  delete old (<[new := i]> (inherit_table d))
    | None => inherit_table d
    end.
Proof.
  unfold renamed. rewrite inherit_table_lookup.
  destruct (modes d !! old) as [md|]; [|done]. apply inherit_table_rename.
Qed.

Lemma reassigned_table old v d :
  inherit_table (reassign_body old v d)
  = rewrite_pointer old v <$> inherit_table d.
Proof. apply inherit_table_rewrite. Qed.

Lemma removed_table old v d :
  inherit_table (removed old v d)
  = delete old (rewrite_pointer old v <$> inherit_table d).
Proof.
  unfold removed, inherit_table. simpl. rewrite fmap_delete. f_equal.
  rewrite <- !map_fmap_compose. apply map_fmap_ext. intros ? md _. simpl.
  apply inherit_rewrite_inherit.
Qed.

Lemma keyed_rewrite old v ms :
  keyed ms → keyed (rewrite_inherit old v <$> ms).
Proof.
  unfold keyed. intros Hk. apply map_Forall_fmap.
  intros k md Hmd. simpl. rewrite name_rewrite_inherit. by apply (Hk k).
Qed.

Lemma added_keyed new d : keyed (modes d) → keyed (modes (added empty_config new d)).
Proof. intros Hk. simpl. by apply map_Forall_insert_2. Qed.

Lemma changed_keyed mode v d : keyed (modes d) → keyed (modes (changed mode v d)).
Proof.
  intros Hk. unfold changed. destruct (modes d !! mode) as [md|] eqn:Hmd;
    [|done]. simpl. apply map_Forall_insert_2; [|done]. exact (Hk mode md Hmd).
Qed.

Lemma renamed_keyed old new d : keyed (modes d) → keyed (modes (renamed old new d)).
Proof.
  intros Hk. unfold renamed. destruct (modes d !! old) as [md|]; [|done].
  simpl. apply keyed_rewrite, map_Forall_delete.
  by apply map_Forall_insert_2.
Qed.

Lemma removed_keyed old v d : keyed (modes d) → keyed (modes (removed old v d)).
Proof. intros Hk. simpl. by apply map_Forall_delete, keyed_rewrite. Qed.

Lemma reassigned_keyed old v d :
  keyed (modes d) → keyed (modes (reassign_body old v d)).
Proof. intros Hk. simpl. by apply keyed_rewrite. Qed.

Lemma not_in_mode_list new p d :
  new ∉ mode_list p → d ∈ devices p → modes d !! new = None.
Proof.
  intros Hnew Hd. destruct (modes d !! new) eqn:Hdn; [|done].
  destruct Hnew. apply mode_list_spec. exists d. split; [done|by eexists].
Qed.

Lemma rewrite_pointer_absent old v (t : gmap string (option string)) :
  closed t → t !! old = None → rewrite_pointer old v <$> t = t.
Proof.
  intros Hcl Hold. apply map_eq. intros k. rewrite lookup_fmap.
  destruct (t !! k) as [w|] eqn:Hk; [|done]. simpl. f_equal.
  unfold rewrite_pointer. case_decide as Hw; [|done]. subst w.
  by destruct (closed_no_pointer_to t old k Hcl Hold).
Qed.

Lemma parent_of_deleted_table d old :
  keyed (modes d) →
  parent_of_deleted (modes d) old = inherit_table d !! old ≫= id.
Proof.
  intros Hk. rewrite parent_of_deleted_keyed by done.
  rewrite inherit_table_lookup. by destruct (modes d !! old).
Qed.

(** *** Validity of single devices *)

Lemma added_valid new d : valid_device d → valid_device (added empty_config new d).
Proof.
  intros (Hk & Hcl & Hac). split; [by apply added_keyed|].
  rewrite added_table. split; [by apply closed_add_root|by apply acyclic_add_root].
Qed.

Lemma renamed_valid old new d :
  modes d !! new = None → valid_device d → valid_device (renamed old new d).
Proof.
  intros Hnew (Hk & Hcl & Hac). split; [by apply renamed_keyed|].
  rewrite renamed_table. destruct (inherit_table d !! old) as [i|] eqn:Hold;
    [|done].
  assert (inherit_table d !! new = None) as Hnew'
    by (by rewrite inherit_table_lookup, Hnew).
  split; [by apply closed_rename|by apply acyclic_rename].
Qed.

Lemma removed_valid old d :
  valid_device d →
  valid_device (removed old (inherit_table d !! old ≫= id) d).
Proof.
  intros (Hk & Hcl & Hac). split; [by apply removed_keyed|].
  rewrite removed_table. split; [by apply closed_delete|by apply acyclic_delete].
Qed.

Lemma reassigned_valid old v d :
  modes d !! old = None → valid_device d →
  valid_device (reassign_body old v d).
Proof.
  intros Hold (Hk & Hcl & Hac). split; [by apply reassigned_keyed|].
  rewrite reassigned_table, rewrite_pointer_absent; [done|done|].
  by rewrite inherit_table_lookup, Hold.
Qed.

(** *** The invariants across one operation *)


Lemma add_preserves_valid dialog p :
  valid_profile p → valid_profile (snd (_add_mode_cb empty_config dialog p)).
Proof.
  intros Hval. destruct dialog as [new [|]]; [|done].
  destruct (decide (new ∈ mode_list p)) as [Hin|Hnew].
  { unfold _add_mode_cb. by rewrite decide_True. }
  rewrite add_outcome by done. simpl.
  apply valid_fmap with (F := insert new None); [done|].
  intros d _ Hd. split; [apply added_table|by apply added_valid].
Qed.


Lemma rename_preserves_valid dialog old p :
  valid_profile p → valid_profile (snd (_rename_mode dialog old p)).
Proof.
  intros Hval. destruct dialog as [new [|]]; [|done].
  destruct (decide (new ∈ mode_list p)) as [Hin|Hnew].
  { unfold _rename_mode. by rewrite decide_True. }
  destruct (rename_outcome old new p Hnew (proj1 Hval)) as [[-> _]|[-> _]];
    [|done].
  simpl. apply valid_fmap with
    (F := λ t, match t !! old with
               | Some i => rewrite_pointer old (Some new) <$>
                             delete old (<[new := i]> t)
               | None => t
               end); [done|].
  intros d Hin Hd. split.
  - apply renamed_table.
  - apply renamed_valid; [|done]. by apply (not_in_mode_list new p).
Qed.


Lemma delete_preserves_valid old p :
  valid_profile p → valid_profile (snd (_delete_mode old p)).
Proof.
  intros Hval. pose proof Hval as [Hmir Hall].
  rewrite Forall_forall in Hall.
  assert (devices p = [] ∨ ∃ d0 rest, devices p = d0 :: rest)
    as [Hds|(d0 & rest & Hds)] by (destruct (devices p); eauto).
  { unfold _delete_mode. by rewrite Hds. }
  assert (d0 ∈ devices p) as Hd0 by (rewrite Hds; apply list_elem_of_here).
  assert (∀ d, d ∈ devices p →
            parent_of_deleted (modes d0) old = inherit_table d !! old ≫= id)
    as Hparent.
  { intros d Hd. rewrite parent_of_deleted_table by by apply Hall.
    by rewrite (Hmir d0 d). }
  destruct (delete_outcome old p d0 rest Hds Hmir) as [[-> _]|[-> Hnone]];
    simpl.
  - apply valid_fmap with
      (F := λ t, delete old (rewrite_pointer old (t !! old ≫= id) <$> t));
      [done|].
    intros d Hd Hvd. rewrite (Hparent d Hd). split.
    + apply removed_table.
    + by apply removed_valid.
  - apply valid_fmap with (F := id); [done|]. intros d Hd Hvd. split.
    + rewrite reassigned_table. unfold id.
      apply rewrite_pointer_absent; [apply Hvd|].
      by rewrite inherit_table_lookup, Hnone.
    + apply reassigned_valid; [by apply Hnone|done].
Qed.

Lemma change_outcome fuel mode inherit_name p :
  mirrored p →
  has_inheritance_cycle fuel p mode inherit_name = Some (inr false) →
  let v := if decide (inherit_name = "None") then None
           else Some inherit_name in
  (_change_mode_inheritance fuel mode inherit_name p
     = Some (modes_changed, mkProfile (changed mode v <$> devices p)) ∧
   ∀ d, d ∈ devices p → is_Some (modes d !! mode)) ∨
  (_change_mode_inheritance fuel mode inherit_name p
     = Some (raised (KeyError mode), p) ∧
   ∀ d, d ∈ devices p → modes d !! mode = None).
Proof.
  intros Hmir Hcheck v. unfold _change_mode_inheritance. rewrite Hcheck.
  fold v.
  destruct (loop_all_or_nothing (change_inherit_body mode v)
              (changed mode v) mode (devices p)) as [[-> Hall]|[-> Hall]].
  - intros d [md Hmd]. unfold change_inherit_body, changed. by rewrite Hmd.
  - intros d Hd. unfold change_inherit_body. by rewrite Hd.
  - intros d1 d2 ??. by apply (mirrored_has_mode p).
  - by left.
  - right. simpl. by rewrite profile_eta.
Qed.


Lemma apply_op_valid p o :
  valid_profile p → valid_profile (apply_op empty_config p o).
Proof.
  destruct o; simpl; auto using add_preserves_valid,
    rename_preserves_valid, delete_preserves_valid.
Qed.

Lemma apply_ops_valid ops p :
  valid_profile p → valid_profile (apply_ops empty_config ops p).
Proof.
  revert p. induction ops as [|o ops IH]; intros p Hval; [done|].
  simpl. by apply IH, apply_op_valid.
Qed.

End Operations.

(** ** The executable check implies validity *)

Section Check.
Context {Config : Type}.
Implicit Types (d : Device Config) (p : Profile Config).

Lemma check_device_sound d : check_device d = true → valid_device d.
Proof.
  unfold check_device. intros [Hk Hr]%andb_true_iff.
  apply bool_decide_eq_true in Hk. apply rooted_sound in Hr as [? ?].
  by split.
Qed.

Lemma check_profile_sound p : check_profile p = true → valid_profile p.
Proof.
  unfold check_profile. intros [Hall Hmir]%andb_true_iff. split.
  - assert (∃ t, ∀ d, d ∈ devices p → inherit_table d = t) as [t Ht].
    { destruct (devices p) as [|d0 rest]; [exists ∅; by intros ? ?%elem_of_nil|].
      exists (inherit_table d0). intros d [->|Hd]%elem_of_cons; [done|].
      rewrite forallb_forall in Hmir. apply list_elem_of_In in Hd.
      by apply (bool_decide_eq_true_1 _ (Hmir d Hd)). }
    intros d1 d2 H1 H2. by rewrite (Ht d1), (Ht d2).
  - apply Forall_forall. intros d Hd. apply check_device_sound.
    rewrite forallb_forall in Hall. by apply Hall, list_elem_of_In.
Qed.


End Check.

(** * The claims *)

(** C1 (amended): starting from a profile in which every device stores its
    modes under their own names, has an acyclic inheritance graph with no
    dangling pointer, and all devices carry the same mode names with the
    same [inherit] pointers, after any sequence of add, rename and delete
    operations the inheritance graph of every device is still acyclic and
    every [inherit] pointer names an existing mode. *)
Theorem inherit_graph_invariant {Config : Type} (empty_config : Config)
    (ops : list graph_op) (p : Profile Config) :
  valid_profile p →
  ∀ d, d ∈ devices (apply_ops empty_config ops p) →
    acyclic (inherit_table d) ∧ closed (inherit_table d).
Proof.
  intros Hval d Hd.
  destruct (apply_ops_valid empty_config ops p Hval) as [_ Hall].
  rewrite Forall_forall in Hall. destruct (Hall d Hd) as (_ & ? & ?). done.
Qed.

Lemma inherit_graph_invariant_witness :
  Forall (λ d, acyclic (inherit_table d) ∧ closed (inherit_table d))
    (devices (apply_ops tt
                [add_mode ("combat", true);
                 rename_mode "Global" ("Base", true);
                 delete_mode "radio";
                 add_mode ("Base", true);
                 delete_mode "missing"]
                Examples.manual_profile)).
Proof.
  apply Forall_forall. apply (inherit_graph_invariant tt).
  apply check_profile_sound. vm_compute. reflexivity.
Defined.

(** The equality of the inheritance tables across devices is needed:
    [_delete_mode] takes the parent of the deleted mode from the first
    device, so on devices that are valid one by one but disagree, deleting
    [M] can leave [X] inheriting from itself. *)
Example delete_mode_on_skewed_devices :
  forallb check_device (devices Examples.skewed_profile) = true ∧
  (inherit_table <$> devices (snd (_delete_mode "M" Examples.skewed_profile)))
    !! 1%nat ≫= (.!! "X") = Some (Some "X").
Proof. split; vm_compute; reflexivity. Qed.

(** C1 as stated fails when the devices are valid one by one and carry the
    same mode names but not the same pointers: every device of the profile
    below is keyed, closed and acyclic with the modes [M] and [X], and after
    deleting [M] the second device has [X] inheriting from itself. *)
Lemma inherit_graph_invariant_fails_on_skewed_devices :
  Forall (λ d, keyed (modes d) ∧ closed (inherit_table d) ∧
               acyclic (inherit_table d) ∧
               dom (modes d) = ({["M"; "X"]} : gset string))
    (devices Examples.skewed_profile) ∧
  ∃ d, devices (apply_ops tt [delete_mode "M"] Examples.skewed_profile)
         !! 1%nat = Some d ∧
    inherit_table d !! "X" = Some (Some "X") ∧
    ¬ acyclic (inherit_table d).
Proof.
  split.
  - constructor; [|constructor; [|constructor]].
    all: match goal with
         | |- keyed (modes ?d) ∧ _ =>
             assert (check_device d = true) as (Hk & Hcl & Hac)%check_device_sound
               by (vm_compute; reflexivity)
         end.
    all: repeat split; try done.
    all: apply (bool_decide_unpack _); vm_compute; exact I.
  - eexists. split; [vm_compute; reflexivity|].
    split; [vm_compute; reflexivity|].
    intros Hac. apply (acyclic_no_self_loop _ "X" Hac).
    vm_compute. reflexivity.
Qed.

(** C9: in a device whose inheritance graph is acyclic and closed, the walk
    along the [inherit] pointers from any existing mode ends at a root after
    visiting at most as many modes as the device has; with that much fuel
    both the chain resolution and the cycle-check loop of
    [_change_mode_inheritance] return, the latter telling whether the mode
    in question occurs further up the chain. *)
Theorem inherit_walk_terminates {Config : Type} (d : Device Config)
    (start : string) :
  closed (inherit_table d) → acyclic (inherit_table d) →
  is_Some (modes d !! start) →
  ∃ chain,
    chain_of (inherit_table d) start chain ∧
    (length chain ≤ size (modes d))%nat ∧
    (∃ root md, last chain = Some root ∧ modes d !! root = Some md ∧
                inherit md = None) ∧
    ∀ fuel, (length chain ≤ fuel)%nat →
      resolve_chain fuel (modes d) start = Some (inr chain) ∧
      ∀ mode, cycle_walk fuel (modes d) mode start
              = Some (inr (bool_decide (mode ∈ tail chain))).
Proof.
  intros Hcl Hac Hstart. apply has_mode_table in Hstart.
  destruct (chain_exists _ start Hcl Hac Hstart) as (chain & Hchain & Hlen).
  exists chain. split; [done|]. split.
  { unfold inherit_table in Hlen. by rewrite map_size_fmap in Hlen. }
  split.
  - destruct (chain_of_last_root _ _ _ Hchain) as (r & Hlast & Hr).
    apply lookup_inherit in Hr as (md & Hmd & Hroot). by exists r, md.
  - intros fuel Hfuel. split.
    + by apply resolve_chain_complete.
    + intros mode. by apply cycle_walk_complete.
Qed.

Lemma inherit_walk_terminates_witness :
  ∃ chain,
    chain_of (inherit_table (mkDevice 1 Examples.manual_modes)) "landing" chain ∧
    (length chain ≤ size Examples.manual_modes)%nat ∧
    (∃ root md, last chain = Some root ∧
                Examples.manual_modes !! root = Some md ∧ inherit md = None) ∧
    ∀ fuel, (length chain ≤ fuel)%nat →
      resolve_chain fuel Examples.manual_modes "landing" = Some (inr chain) ∧
      ∀ mode, cycle_walk fuel Examples.manual_modes mode "landing"
              = Some (inr (bool_decide (mode ∈ tail chain))).
Proof.
  assert (rooted (inherit_table (mkDevice 1 Examples.manual_modes)) = true)
    as [Hcl Hac]%rooted_sound by (vm_compute; reflexivity).
  apply (inherit_walk_terminates (mkDevice 1 Examples.manual_modes) "landing");
    [exact Hcl|exact Hac|].
  vm_compute. eexists. reflexivity.
Defined.

(** The cycle check returns as soon as the fuel exceeds the number of modes
    of the first device. *)
Lemma has_inheritance_cycle_returns {Config : Type} (p : Profile Config)
    (fuel : nat) (mode inherit_name : string) :
  Forall valid_device (devices p) →
  (∀ d, d ∈ devices p → (size (modes d) < fuel)%nat) →
  is_Some (has_inheritance_cycle fuel p mode inherit_name).
Proof.
  intros Hall Hfuel. unfold has_inheritance_cycle.
  case_decide; [by eexists|].
  destruct (devices p) as [|d0 rest] eqn:Hds; [by eexists|].
  apply Forall_cons in Hall as [(_ & Hcl & Hac) _].
  assert (size (modes d0) < fuel)%nat as Hlt
    by apply Hfuel, list_elem_of_here.
  destruct (modes d0 !! inherit_name) as [md|] eqn:Hmd.
  - destruct (chain_exists _ inherit_name Hcl Hac) as (chain & Hchain & Hlen).
    { apply has_mode_table. by eexists. }
    unfold inherit_table in Hlen, Hchain. rewrite map_size_fmap in Hlen.
    rewrite (cycle_walk_complete _ mode _ chain) by (done || lia).
    by eexists.
  - destruct fuel as [|fuel]; [lia|]. simpl. rewrite Hmd. by eexists.
Qed.



(** ** Successful runs of rename and delete *)

Section Success.
Context {Config : Type}.
Implicit Types (d : Device Config) (p : Profile Config).

Lemma delete_success old p d0 rest :
  devices p = d0 :: rest →
  Forall (λ d, is_Some (modes d !! old)) (devices p) →
  _delete_mode old p
  = (modes_changed,
     mkProfile (removed old (parent_of_deleted (modes d0) old) <$> devices p)).
Proof.
  intros Hds Hall. rewrite Forall_forall in Hall.
  unfold _delete_mode. rewrite Hds. rewrite <- Hds.
  rewrite (for_each_device_total _
             (λ d', set_modes (delete old (modes d')) d')).
  - simpl. by rewrite <- list_fmap_compose.
  - intros d' (d & -> & Hd)%list_elem_of_fmap.
    by rewrite delete_body_reassigned by by apply Hall.
Qed.

Lemma rename_success old new p :
  new ∉ mode_list p →
  Forall (λ d, is_Some (modes d !! old)) (devices p) →
  _rename_mode (new, true) old p
  = (modes_changed, mkProfile (renamed old new <$> devices p)).
Proof.
  intros Hnew Hall. rewrite Forall_forall in Hall.
  unfold _rename_mode. rewrite decide_False by done.
  rewrite (for_each_device_total _ (renamed old new)); [done|].
  intros d Hd. destruct (Hall d Hd) as [md Hmd].
  unfold rename_body, renamed. by rewrite Hmd.
Qed.

Lemma removed_lookup old v d X :
  modes (removed old v d) !! X
  = if decide (X = old) then None
    else rewrite_inherit old v <$> (modes d !! X).
Proof.
  simpl. rewrite lookup_delete. destruct (decide (old = X)) as [->|HX].
  - by rewrite decide_True.
  - rewrite decide_False by congruence. by rewrite lookup_fmap.
Qed.

Lemma renamed_lookup old new md d X :
  modes d !! old = Some md → old ≠ new →
  modes (renamed old new d) !! X
  = if decide (X = old) then None
    else if decide (X = new)
         then Some (rewrite_inherit old (Some new) (set_name new md))
         else rewrite_inherit old (Some new) <$> (modes d !! X).
Proof.
  intros Hmd Hne. unfold renamed. rewrite Hmd. simpl.
  rewrite lookup_fmap, lookup_delete.
  destruct (decide (old = X)) as [->|HX].
  - by rewrite decide_True.
  - rewrite decide_False by congruence. rewrite lookup_insert.
    destruct (decide (new = X)) as [->|HX'].
    + by rewrite decide_True.
    + by rewrite decide_False by congruence.
Qed.

End Success.

(** C3: when [M] exists on every device and its parent on the first device
    is [P] (possibly none), [_delete_mode M] succeeds, and on every device
    each remaining mode whose [inherit] was [M] is the same mode with
    [inherit = P], the other modes are unchanged, no mode appears that was
    not there, and no mode is stored under [M] any more. *)
Theorem delete_mode_reparents {Config : Type} (p : Profile Config)
    (M : string) (P : option string) (d0 : Device Config)
    (rest : list (Device Config)) :
  devices p = d0 :: rest →
  keyed (modes d0) →
  Forall (λ d, is_Some (modes d !! M)) (devices p) →
  inherit <$> (modes d0 !! M) = Some P →
  ∃ p', _delete_mode M p = (modes_changed, p') ∧
    length (devices p') = length (devices p) ∧
    ∀ i d, devices p !! i = Some d →
      ∃ d', devices p' !! i = Some d' ∧
        hardware_id d' = hardware_id d ∧
        modes d' !! M = None ∧
        ∀ X, X ≠ M →
          match modes d !! X with
          | None => modes d' !! X = None
          | Some md =>
              modes d' !! X
              = Some (if decide (inherit md = Some M)
                      then mkMode (name md) P (config md)
                      else md)
          end.
Proof.
  intros Hds Hk Hall HP.
  assert (parent_of_deleted (modes d0) M = P) as Hparent.
  { rewrite parent_of_deleted_keyed by done.
    destruct (modes d0 !! M); by simplify_eq/=. }
  eexists. split; [by apply (delete_success M p d0 rest)|].
  rewrite Hparent. simpl.
  split; [by rewrite length_fmap|].
  intros i d Hi. exists (removed M P d). split.
  { by rewrite list_lookup_fmap, Hi. }
  split; [done|]. split.
  - by rewrite removed_lookup, decide_True.
  - intros X HX. rewrite removed_lookup, decide_False by done.
    destruct (modes d !! X) as [md|]; [|done]. simpl.
    unfold rewrite_inherit, set_inherit. by case_decide.
Qed.

Lemma delete_mode_reparents_witness :
  ∃ p', _delete_mode "radio" Examples.manual_profile = (modes_changed, p') ∧
    length (devices p') = length (devices Examples.manual_profile) ∧
    ∀ i d, devices Examples.manual_profile !! i = Some d →
      ∃ d', devices p' !! i = Some d' ∧
        hardware_id d' = hardware_id d ∧
        modes d' !! "radio" = None ∧
        ∀ X, X ≠ "radio" →
          match modes d !! X with
          | None => modes d' !! X = None
          | Some md =>
              modes d' !! X
              = Some (if decide (inherit md = Some "radio")
                      then mkMode (name md) (Some "Global") (config md)
                      else md)
          end.
Proof.
  apply (delete_mode_reparents Examples.manual_profile "radio" (Some "Global")
           (mkDevice 2382820288 Examples.manual_modes)
           [mkDevice 1 Examples.manual_modes]).
  - reflexivity.
  - unfold keyed. apply (bool_decide_unpack _). vm_compute. exact I.
  - apply (bool_decide_unpack _). vm_compute. exact I.
  - vm_compute. reflexivity.
Defined.

(** ** Chains after a rename *)

Lemma rewrite_pointer_rename (old new y : string) :
  rewrite_pointer old (Some new) (Some y) = Some (rename_name old new y).
Proof.
  unfold rewrite_pointer, rename_name.
  destruct (decide (y = old)) as [->|Hy].
  - by rewrite decide_True.
  - rewrite decide_False; [done|]. congruence.
Qed.

Lemma chain_of_rename (t : gmap string (option string)) (old new : string)
    (i : option string) (x : string) (chain : list string) :
  t !! old = Some i → t !! new = None →
  chain_of t x chain →
  chain_of (rewrite_pointer old (Some new) <$> delete old (<[new := i]> t))
           (rename_name old new x) (rename_name old new <$> chain).
Proof.
  intros Hold Hnew. assert (old ≠ new) as Hne by congruence.
  assert (∀ z w, t !! z = Some w →
            (rewrite_pointer old (Some new) <$> delete old (<[new := i]> t))
              !! rename_name old new z
            = Some (rewrite_pointer old (Some new) w)) as Hlook.
  { intros z w Hz. rewrite lookup_renamed by done. unfold rename_name.
    destruct (decide (z = old)) as [->|Hzo].
    - rewrite decide_False, decide_True by done. congruence.
    - rewrite decide_False by done. rewrite decide_False by congruence.
      by rewrite Hz. }
  induction 1 as [x Hx|x y rest Hx Hy IH]; simpl.
  - apply chain_root. by rewrite (Hlook x None).
  - apply chain_step with (rename_name old new y); [|done].
    rewrite (Hlook x (Some y)) by done. by rewrite rewrite_pointer_rename.
Qed.

(** C4: [_rename_mode] shows the duplicate-name error and leaves the profile
    alone when the new name already exists for some device; otherwise (the
    old mode being present on every device) it moves the mode object to the
    new key on every device, rewrites every [inherit] equal to the old name
    to the new one, and the chain of every mode afterwards is the chain
    before with the names substituted, of the same length and order. *)
Theorem rename_mode_moves_and_rewrites {Config : Type} (p : Profile Config)
    (old new : string) :
  (new ∈ mode_list p →
   _rename_mode (new, true) old p = (display_error new, p)) ∧
  (new ∉ mode_list p →
   Forall (λ d, is_Some (modes d !! old)) (devices p) →
   ∃ p', _rename_mode (new, true) old p = (modes_changed, p') ∧
     length (devices p') = length (devices p) ∧
     ∀ i d, devices p !! i = Some d →
       ∃ d' md, devices p' !! i = Some d' ∧ modes d !! old = Some md ∧
         hardware_id d' = hardware_id d ∧
         modes d' !! old = None ∧
         modes d' !! new
           = Some (rewrite_inherit old (Some new) (set_name new md)) ∧
         (∀ X, X ≠ old → X ≠ new →
            modes d' !! X
            = rewrite_inherit old (Some new) <$> (modes d !! X)) ∧
         (closed (inherit_table d) → acyclic (inherit_table d) →
          ∀ x, is_Some (modes d !! x) →
            ∃ chain, (length chain ≤ size (modes d))%nat ∧
              ∀ fuel, (length chain ≤ fuel)%nat →
                resolve_chain fuel (modes d) x = Some (inr chain) ∧
                resolve_chain fuel (modes d') (rename_name old new x)
                = Some (inr (rename_name old new <$> chain)))).
Proof.
  split.
  { intros Hin. unfold _rename_mode. by rewrite decide_True. }
  intros Hnew Hall. eexists. split; [by apply rename_success|]. simpl.
  split; [by rewrite length_fmap|].
  rewrite Forall_forall in Hall. intros i d Hi.
  assert (d ∈ devices p) as Hd by (by eapply list_elem_of_lookup_2).
  destruct (Hall d Hd) as [md Hmd].
  assert (modes d !! new = None) as Hdn by by apply (not_in_mode_list new p).
  assert (old ≠ new) as Hne by congruence.
  exists (renamed old new d), md.
  split; [by rewrite list_lookup_fmap, Hi|]. split; [done|].
  split; [unfold renamed; by rewrite Hmd|].
  split; [by rewrite (renamed_lookup old new md), decide_True|].
  split.
  { rewrite (renamed_lookup old new md) by done.
    by rewrite decide_False, decide_True by done. }
  split.
  { intros X HXo HXn. rewrite (renamed_lookup old new md) by done.
    by rewrite !decide_False by done. }
  intros Hcl Hac x Hx. apply has_mode_table in Hx.
  destruct (chain_exists _ x Hcl Hac Hx) as (chain & Hchain & Hlen).
  exists chain. split.
  { unfold inherit_table in Hlen. by rewrite map_size_fmap in Hlen. }
  intros fuel Hfuel. split; [by apply resolve_chain_complete|].
  apply resolve_chain_complete; [|by rewrite length_fmap].
  fold (inherit_table (renamed old new d)). rewrite renamed_table.
  rewrite inherit_table_lookup, Hmd. simpl.
  apply chain_of_rename; [|by rewrite inherit_table_lookup, Hdn|done].
  by rewrite inherit_table_lookup, Hmd.
Qed.

Lemma rename_mode_moves_and_rewrites_witness :
  ∃ p', _rename_mode ("Base", true) "Global" Examples.manual_profile
        = (modes_changed, p') ∧
    ∀ d', d' ∈ devices p' →
      resolve_chain 3 (modes d') "landing"
      = Some (inr ["landing"; "radio"; "Base"]).
Proof.
  destruct (rename_mode_moves_and_rewrites Examples.manual_profile
              "Global" "Base") as [_ Hrename].
  destruct Hrename as (p' & Hrun & _ & _).
  - vm_compute. intros Hin. discriminate Hin.
  - apply (bool_decide_unpack _). vm_compute. exact I.
  - exists p'. split; [exact Hrun|].
    vm_compute in Hrun. injection Hrun as <-.
    intros d' Hd'. apply list_elem_of_In in Hd'. simpl in Hd'.
    destruct Hd' as [<-|[<-|[]]]; vm_compute; reflexivity.
Defined.

(** ** Changing the inheritance twice *)

Lemma cycle_walk_direct_parent {Config : Type}
    (ms : gmap string (Mode Config)) (fuel : nat) (mode cur : string)
    (md : Mode Config) :
  ms !! cur = Some md → inherit md = Some mode →
  cycle_walk (S fuel) ms mode cur = Some (inr true).
Proof. intros Hcur Hmd. simpl. rewrite Hcur, Hmd. by rewrite decide_True. Qed.

(** C2 (amended): in a valid profile, for modes [A] and [B] of which neither
    is called "None" and where [B] does not already inherit from [A], the
    call for [A] to inherit from [B] goes through on every device, and the
    following call for [B] to inherit from [A] finds the cycle
    ([has_inheritance_cycle] is true) and returns without emitting anything
    and without changing any device. *)
Theorem second_inheritance_rejected {Config : Type} (p : Profile Config)
    (A B : string) (d0 : Device Config) (rest : list (Device Config))
    (fuel : nat) :
  valid_profile p → devices p = d0 :: rest →
  is_Some (modes d0 !! A) → is_Some (modes d0 !! B) →
  A ≠ "None" → B ≠ "None" →
  ¬ tc (parent_of (inherit_table d0)) B A →
  (size (modes d0) ≤ fuel)%nat →
  ∃ p1, _change_mode_inheritance fuel A B p = Some (modes_changed, p1) ∧
    (∀ d, d ∈ devices p1 → inherit <$> (modes d !! A) = Some (Some B)) ∧
    has_inheritance_cycle fuel p1 B A = Some (inr true) ∧
    _change_mode_inheritance fuel B A p1 = Some (no_feedback, p1).
Proof.
  intros [Hmir Hall] Hds HA HB HAn HBn Hfree Hfuel.
  assert (d0 ∈ devices p) as Hd0 by (rewrite Hds; apply list_elem_of_here).
  rewrite Forall_forall in Hall. destruct (Hall d0 Hd0) as (_ & Hcl & Hac).
  assert (has_inheritance_cycle fuel p A B = Some (inr false)) as Hfirst.
  { unfold has_inheritance_cycle. rewrite decide_False, Hds by done.
    destruct (chain_exists _ B Hcl Hac) as (chain & Hchain & Hlen).
    { by apply has_mode_table. }
    unfold inherit_table in Hlen. rewrite map_size_fmap in Hlen.
    rewrite (cycle_walk_complete _ A B chain) by (done || lia).
    rewrite bool_decide_eq_false_2; [done|].
    intros Hin. by apply Hfree, (chain_of_tail_tc _ _ chain). }
  destruct (change_outcome fuel A B p Hmir Hfirst) as [[Hrun Hhas]|[_ Hnone]].
  2: { destruct HA as [md HA]. rewrite (Hnone d0 Hd0) in HA. done. }
  rewrite decide_False in Hrun by done.
  eexists. split; [exact Hrun|].
  assert (∀ d, d ∈ devices p →
            ∃ md, modes (changed A (Some B) d) !! A = Some md ∧
                  inherit md = Some B) as Hchanged.
  { intros d Hd. destruct (Hhas d Hd) as [md Hmd]. unfold changed.
    rewrite Hmd. simpl. rewrite lookup_insert_eq. by eexists. }
  assert (has_inheritance_cycle fuel
            (mkProfile (changed A (Some B) <$> devices p)) B A
          = Some (inr true)) as Hsecond.
  { unfold has_inheritance_cycle. rewrite decide_False by done. simpl.
    rewrite Hds. simpl. destruct (Hchanged d0 Hd0) as (md & Hmd & Hinh).
    destruct fuel as [|fuel].
    { apply map_size_ne_0_lookup_2 in HA. lia. }
    by apply cycle_walk_direct_parent with md. }
  split; [|split; [done|]].
  - simpl. intros d' (d & -> & Hd)%list_elem_of_fmap.
    destruct (Hchanged d Hd) as (md & -> & Hinh). simpl. by rewrite Hinh.
  - unfold _change_mode_inheritance. by rewrite Hsecond.
Qed.

Lemma second_inheritance_rejected_witness :
  ∃ p1, _change_mode_inheritance 3 "radio" "landing" Examples.sibling_profile
        = Some (modes_changed, p1) ∧
    (∀ d, d ∈ devices p1 →
       inherit <$> (modes d !! "radio") = Some (Some "landing")) ∧
    has_inheritance_cycle 3 p1 "landing" "radio" = Some (inr true) ∧
    _change_mode_inheritance 3 "landing" "radio" p1 = Some (no_feedback, p1).
Proof.
  apply (second_inheritance_rejected Examples.sibling_profile
           "radio" "landing"
           (mkDevice 2382820288 Examples.sibling_modes)
           [mkDevice 1 Examples.sibling_modes] 3).
  - apply check_profile_sound. vm_compute. reflexivity.
  - reflexivity.
  - vm_compute. eexists. reflexivity.
  - vm_compute. eexists. reflexivity.
  - discriminate.
  - discriminate.
  - intros Htc.
    assert (chain_of
              (inherit_table (mkDevice 2382820288 Examples.sibling_modes))
              "landing" ["landing"; "Global"]) as Hchain.
    { apply (resolve_chain_sound _ _ _ 3). vm_compute. reflexivity. }
    apply (tc_chain_of_tail _ _ _ _ Hchain) in Htc. simpl in Htc.
    apply list_elem_of_In in Htc. simpl in Htc.
    destruct Htc as [Heq|[]]. discriminate Heq.
  - vm_compute. lia.
Defined.

(** C2 as stated fails for a mode the user has called "None": asking for
    [B] to inherit from it is read as clearing the inheritance of [B], so the
    second call is not rejected and [B] loses its parent [C]. *)
Lemma second_inheritance_accepted_for_None :
  ∃ p1 p2,
    _change_mode_inheritance 3 "None" "B" Examples.none_profile
      = Some (modes_changed, p1) ∧
    has_inheritance_cycle 3 p1 "B" "None" = Some (inr false) ∧
    _change_mode_inheritance 3 "B" "None" p1 = Some (modes_changed, p2) ∧
    (inherit_table <$> devices p1) !! 0%nat
      ≫= (.!! "B") = Some (Some "C") ∧
    (inherit_table <$> devices p2) !! 0%nat
      ≫= (.!! "B") = Some None.
Proof.
  eexists _, _. split; [vm_compute; reflexivity|].
  split; [vm_compute; reflexivity|].
  split; [vm_compute; reflexivity|].
  split; vm_compute; reflexivity.
Qed.

(** ** Mode switch controller *)

Lemma next_name_first (first : string) (l : list string) (cur : string)
    (i : nat) :
  l !! i = Some cur → (∀ j, (j < i)%nat → l !! j ≠ Some cur) →
  ControlAction.next_name first l cur = Some (default first (l !! S i)).
Proof.
  revert i. induction l as [|x l IH]; intros i Hi Hfirst; [done|].
  simpl. destruct i as [|i].
  - simpl in Hi. injection Hi as ->. rewrite decide_True by done.
    by destruct l.
  - rewrite decide_False.
    + apply IH; [done|]. intros j Hj. apply (Hfirst (S j)). lia.
    + intros ->. by apply (Hfirst 0%nat); [lia|].
Qed.

Lemma next_name_absent (first : string) (l : list string) (cur : string) :
  cur ∉ l → ControlAction.next_name first l cur = None.
Proof.
  induction l as [|x l IH]; [done|]. intros Hcur. simpl.
  rewrite decide_False by (intros ->; apply Hcur, list_elem_of_here).
  apply IH. intros Hin. by apply Hcur, list_elem_of_further.
Qed.

(** C7: [cycle_modes] fails with [InvalidArgumentError] when the active mode
    is not in the list; otherwise, the active mode standing first at
    position [i], the new active mode is the name at position [i + 1],
    wrapping to position 0 after the last, and nothing else changes. *)
Theorem cycle_modes_advances (ordered_names : list string)
    (s : ControlAction.state) :
  (ControlAction.active_mode s ∉ ordered_names →
   ControlAction.cycle_modes ordered_names s
   = inl ControlAction.InvalidArgumentError) ∧
  (∀ i, ordered_names !! i = Some (ControlAction.active_mode s) →
        (∀ j, (j < i)%nat →
              ordered_names !! j ≠ Some (ControlAction.active_mode s)) →
     ∃ s', ControlAction.cycle_modes ordered_names s = inr s' ∧
       ordered_names !! (S i mod length ordered_names)%nat
         = Some (ControlAction.active_mode s') ∧
       ControlAction.previous_mode s' = ControlAction.previous_mode s ∧
       ControlAction.known_modes s' = ControlAction.known_modes s).
Proof.
  split.
  - intros Habsent. unfold ControlAction.cycle_modes.
    by rewrite next_name_absent.
  - intros i Hi Hfirst. unfold ControlAction.cycle_modes.
    rewrite (next_name_first _ _ _ i) by done.
    eexists. split; [done|]. simpl. split; [|done].
    pose proof (lookup_lt_Some _ _ _ Hi) as Hlen.
    destruct (decide (S i < length ordered_names)%nat) as [Hlt|Hge].
    + rewrite Nat.mod_small by done.
      destruct (lookup_lt_is_Some_2 ordered_names (S i) Hlt) as [x ->]. done.
    + assert (S i = length ordered_names) as -> by lia.
      rewrite Nat.Div0.mod_same.
      rewrite (lookup_ge_None_2 ordered_names (length ordered_names)) by lia.
      destruct ordered_names; [simpl in Hlen; lia|done].
Qed.

Lemma cycle_modes_advances_witness :
  ∃ s', ControlAction.cycle_modes ["Global"; "Racing"; "Landing"]
          (ControlAction.mkState ∅ "Landing" None) = inr s' ∧
    ["Global"; "Racing"; "Landing"] !! (3 mod 3)%nat
      = Some (ControlAction.active_mode s') ∧
    ControlAction.previous_mode s' = None ∧
    ControlAction.known_modes s' = ∅.
Proof.
  destruct (cycle_modes_advances ["Global"; "Racing"; "Landing"]
              (ControlAction.mkState ∅ "Landing" None)) as [_ Hadv].
  apply (Hadv 2%nat).
  - reflexivity.
  - intros [|[|j]] Hj; simpl; (discriminate || lia).
Defined.

(** The scenario of the spec: from [Racing] to [Landing], then wrapping to
    [Global]. *)
Example cycle_modes_scenario :
  let names := ["Global"; "Racing"; "Landing"] in
  ControlAction.cycle_modes names (ControlAction.mkState ∅ "Racing" None)
    = inr (ControlAction.mkState ∅ "Landing" None) ∧
  ControlAction.cycle_modes names (ControlAction.mkState ∅ "Landing" None)
    = inr (ControlAction.mkState ∅ "Global" None).
Proof. split; reflexivity. Qed.

(** C8: for a known mode [N], [switch_mode N] records the active mode as the
    previous one and makes [N] active, and [switch_to_previous_mode] then
    makes the recorded mode active again; [switch_to_previous_mode] swaps
    the two and does nothing when no previous mode is recorded. *)
Theorem switch_then_previous_restores (s : ControlAction.state) (N : string) :
  (N ∈ ControlAction.known_modes s →
   ∃ s1, ControlAction.switch_mode N s = inr s1 ∧
     ControlAction.active_mode s1 = N ∧
     ControlAction.previous_mode s1 = Some (ControlAction.active_mode s) ∧
     ControlAction.active_mode (ControlAction.switch_to_previous_mode s1)
       = ControlAction.active_mode s) ∧
  (ControlAction.previous_mode s = None →
   ControlAction.switch_to_previous_mode s = s) ∧
  (∀ prev, ControlAction.previous_mode s = Some prev →
     ControlAction.active_mode (ControlAction.switch_to_previous_mode s) = prev ∧
     ControlAction.previous_mode (ControlAction.switch_to_previous_mode s)
       = Some (ControlAction.active_mode s)).
Proof.
  split; [|split].
  - intros Hknown. unfold ControlAction.switch_mode.
    rewrite decide_True by done. by eexists.
  - intros Hnone. unfold ControlAction.switch_to_previous_mode.
    by rewrite Hnone.
  - intros prev Hprev. unfold ControlAction.switch_to_previous_mode.
    by rewrite Hprev.
Qed.

Lemma switch_then_previous_restores_witness :
  ∃ s1, ControlAction.switch_mode "radio"
          (ControlAction.mkState {["Global"; "radio"]} "Global" None) = inr s1 ∧
    ControlAction.active_mode s1 = "radio" ∧
    ControlAction.previous_mode s1 = Some "Global" ∧
    ControlAction.active_mode (ControlAction.switch_to_previous_mode s1)
      = "Global".
Proof.
  apply (switch_then_previous_restores
           (ControlAction.mkState {["Global"; "radio"]} "Global" None) "radio").
  simpl. apply (bool_decide_unpack _). vm_compute. exact I.
Defined.

(** ** Calibration transform *)

Lemma half_range_positive (value center width : Z) :
  (0 < width)%Z →
  ∃ r, Calibration.half_range value center width = Some r ∧
    (r == inject_Z (value - center) / inject_Z width)%Q ∧
    ((- width ≤ value - center ≤ width)%Z → (-1 <= r)%Q ∧ (r <= 1)%Q) ∧
    ((value - center = width)%Z → (r == 1)%Q) ∧
    ((value - center = - width)%Z → (r == -1)%Q) ∧
    ((value = center)%Z → (r == 0)%Q).
Proof.
  intros Hpos. unfold Calibration.half_range.
  rewrite decide_False by lia. eexists. split; [done|].
  split; [reflexivity|].
  destruct width as [|w|w]; try lia.
  rewrite <- Qmake_Qdiv. unfold Qle, Qeq. simpl. repeat split; intros; lia.
Qed.

Lemma clamp_spec (value minimum maximum : Z) :
  (minimum ≤ maximum)%Z →
  Calibration.clamp value minimum maximum
  = if decide (value < minimum)%Z then minimum
    else if decide (maximum < value)%Z then maximum else value.
Proof. intros Hle. unfold Calibration.clamp. repeat case_decide; lia. Qed.

(** C6 (amended): for a calibration triple with minimum < center < maximum,
    [normalize] is defined, lies in [[-1, 1]], is -1 at and below the
    minimum, 0 at the center, 1 at and above the maximum, and in between is
    the linear map of [[minimum, center]] to [[-1, 0]] below the center and
    of [[center, maximum]] to [[0, 1]] from the center on. *)
Theorem normalize_piecewise_linear (raw minimum center maximum : Z) :
  (minimum < center)%Z → (center < maximum)%Z →
  ∃ r, Calibration.normalize raw minimum center maximum = Some r ∧
    (-1 <= r)%Q ∧ (r <= 1)%Q ∧
    ((raw ≤ minimum)%Z → (r == -1)%Q) ∧
    ((raw = center)%Z → (r == 0)%Q) ∧
    ((maximum ≤ raw)%Z → (r == 1)%Q) ∧
    ((minimum ≤ raw < center)%Z →
       (r == inject_Z (raw - center) / inject_Z (center - minimum))%Q) ∧
    ((center ≤ raw ≤ maximum)%Z →
       (r == inject_Z (raw - center) / inject_Z (maximum - center))%Q).
Proof.
  intros Hlo Hhi. unfold Calibration.normalize.
  rewrite clamp_spec by lia.
  set (value := if decide (raw < minimum)%Z then minimum
                else if decide (maximum < raw)%Z then maximum else raw).
  assert (minimum ≤ value ≤ maximum)%Z as Hrange
    by (unfold value; repeat case_decide; lia).
  assert ((raw ≤ minimum)%Z → value = minimum) as Hbelow
    by (unfold value; repeat case_decide; lia).
  assert ((maximum ≤ raw)%Z → value = maximum) as Habove
    by (unfold value; repeat case_decide; lia).
  assert ((minimum ≤ raw ≤ maximum)%Z → value = raw) as Hinside
    by (unfold value; repeat case_decide; lia).
  clearbody value. destruct (decide (value < center)%Z) as [Hlt|Hge].
  - destruct (half_range_positive value center (center - minimum))
      as (r & -> & Hr & Hbounds & _ & Hminus & _); [lia|].
    exists r. split; [done|].
    split; [apply Hbounds; lia|]. split; [apply Hbounds; lia|].
    split; [intros ?%Hbelow; apply Hminus; lia|].
    split; [intros ->; rewrite Hinside in Hlt by lia; lia|].
    split; [intros ?%Habove; lia|].
    split; [intros ?; by rewrite Hinside in Hr by lia|].
    intros ?. rewrite Hinside in Hlt by lia. lia.
  - destruct (half_range_positive value center (maximum - center))
      as (r & -> & Hr & Hbounds & Hplus & _ & Hzero); [lia|].
    exists r. split; [done|].
    split; [apply Hbounds; lia|]. split; [apply Hbounds; lia|].
    split; [intros ?%Hbelow; lia|].
    split; [intros ->; apply Hzero, Hinside; lia|].
    split; [intros ?%Habove; apply Hplus; lia|].
    split; [intros ?; rewrite Hinside in Hge by lia; lia|].
    intros ?. by rewrite Hinside in Hr by lia.
Qed.

Lemma normalize_piecewise_linear_witness :
  ∃ r, Calibration.normalize (-100) 0 500 1000 = Some r ∧
    (-1 <= r)%Q ∧ (r <= 1)%Q ∧
    ((-100 ≤ 0)%Z → (r == -1)%Q) ∧
    ((-100 = 500)%Z → (r == 0)%Q) ∧
    ((1000 ≤ -100)%Z → (r == 1)%Q) ∧
    ((0 ≤ -100 < 500)%Z →
       (r == inject_Z (-100 - 500) / inject_Z (500 - 0))%Q) ∧
    ((500 ≤ -100 ≤ 1000)%Z →
       (r == inject_Z (-100 - 500) / inject_Z (1000 - 500))%Q).
Proof.
  apply (normalize_piecewise_linear (-100) 0 500 1000); lia.
Defined.

(** The values of the spec's scenario. *)
Example normalize_scenario :
  Calibration.normalize 0 0 500 1000 = Some (-500 # 500)%Q ∧
  Calibration.normalize 1000 0 500 1000 = Some (500 # 500)%Q ∧
  Calibration.normalize 500 0 500 1000 = Some (0 # 500)%Q ∧
  Calibration.normalize (-100) 0 500 1000 = Some (-500 # 500)%Q.
Proof. repeat split; vm_compute; reflexivity. Qed.

(** C6 as stated fails for a triple with minimum = center: a raw value equal
    to both is mapped to 0, not to -1. *)
Lemma normalize_minimum_equal_center :
  (0 ≤ 0 ≤ 10)%Z ∧
  ∃ r, Calibration.normalize 0 0 0 10 = Some r ∧ ¬ (r == -1)%Q.
Proof.
  split; [lia|]. eexists. split; [vm_compute; reflexivity|].
  intros Heq. vm_compute in Heq. discriminate Heq.
Qed.


(** * Further properties of the mode manager *)

(** ** Changing an inheritance keeps the graph well formed *)

Section NewEdge.
Implicit Types (t : gmap string (option string)) (x y : string).

Lemma parent_of_insert t mode v x y :
  parent_of (<[mode := v]> t) x y →
  (x = mode ∧ v = Some y) ∨ (x ≠ mode ∧ parent_of t x y).
Proof.
  unfold parent_of. rewrite lookup_insert. case_decide as Hx.
  - intros [= ->]. by left.
  - intros Hxy. right. split; [congruence|done].
Qed.

(** Every path of the graph with the edge from [mode] replaced either was
    there before or runs through the new edge. *)
Lemma tc_insert_edge t mode target x y :
  tc (parent_of (<[mode := Some target]> t)) x y →
  tc (parent_of t) x y ∨
  (rtc (parent_of t) x mode ∧ rtc (parent_of t) target y).
Proof.
  induction 1 as [x y Hxy|x z y Hxz Hzy IH].
  - apply parent_of_insert in Hxy as [[-> [= ->]]|[_ Hxy]].
    + by right.
    + left. by apply tc_once.
  - apply parent_of_insert in Hxz as [[-> [= ->]]|[_ Hxz]].
    + right. split; [done|]. destruct IH as [Htc|[_ Hrtc]]; [|done].
      by apply tc_rtc.
    + destruct IH as [Htc|[Hmode Htarget]].
      * left. by eapply tc_l.
      * right. split; [|done]. by eapply rtc_l.
Qed.

Lemma acyclic_insert_edge t mode target :
  acyclic t → mode ≠ target → ¬ tc (parent_of t) target mode →
  acyclic (<[mode := Some target]> t).
Proof.
  intros Hac Hne Hfree x Hx.
  apply tc_insert_edge in Hx as [Hx|[Hmode Htarget]]; [by apply (Hac x)|].
  assert (rtc (parent_of t) target mode) as Hback by by etrans.
  apply rtc_tc in Hback as [->|Hback]; [done|by apply Hfree].
Qed.

Lemma closed_insert_edge t mode target :
  closed t → is_Some (t !! target) →
  closed (<[mode := Some target]> t).
Proof.
  intros Hcl Htarget x y Hxy.
  assert (is_Some (t !! y)) as [w Hw].
  { apply parent_of_insert in Hxy as [[_ [= ->]]|[_ Hxy]]; [done|].
    by apply (Hcl x). }
  rewrite lookup_insert. case_decide; [by eexists|]. rewrite Hw. by eexists.
Qed.

End NewEdge.

Section ChangeInheritance.
Context {Config : Type}.
Implicit Types (d : Device Config) (p : Profile Config)
  (ms : gmap string (Mode Config)).

Lemma cycle_walk_accepts ms fuel mode x :
  cycle_walk fuel ms mode x = Some (inr false) →
  is_Some (ms !! x) ∧ ¬ tc (parent_of (inherit <$> ms)) x mode.
Proof.
  revert x. induction fuel as [|fuel IH]; intros x; [done|]. simpl.
  destruct (ms !! x) as [md|] eqn:Hx; [|done].
  assert ((inherit <$> ms) !! x = Some (inherit md)) as Hx'
    by (by rewrite lookup_fmap, Hx).
  intros Hwalk. split; [by eexists|]. intros Htc.
  destruct (inherit md) as [y|].
  - case_decide as Hy; [done|]. apply IH in Hwalk as [_ Hfree].
    inversion Htc as [? ? Hedge|? z ? Hedge Hrest]; subst;
      unfold parent_of in Hedge; by simplify_eq.
  - inversion Htc as [? ? Hedge|? z ? Hedge Hrest]; subst;
      unfold parent_of in Hedge; simplify_eq.
Qed.

Lemma cycle_walk_rejects ms fuel mode x :
  cycle_walk fuel ms mode x = Some (inr true) →
  tc (parent_of (inherit <$> ms)) x mode.
Proof.
  revert x. induction fuel as [|fuel IH]; intros x; [done|]. simpl.
  destruct (ms !! x) as [md|] eqn:Hx; [|done].
  assert ((inherit <$> ms) !! x = Some (inherit md)) as Hx'
    by (by rewrite lookup_fmap, Hx).
  destruct (inherit md) as [y|]; [|done].
  case_decide as Hy.
  - subst. intros _. by apply tc_once.
  - intros Hwalk. eapply tc_l; [done|]. by apply IH.
Qed.

Lemma changed_valid mode v d :
  valid_device d → is_Some (modes d !! mode) →
  match v with
  | None => True
  | Some target =>
      mode ≠ target ∧ is_Some (modes d !! target) ∧
      ¬ tc (parent_of (inherit_table d)) target mode
  end →
  valid_device (changed mode v d).
Proof.
  intros (Hk & Hcl & Hac) Hmode Hv. split; [by apply changed_keyed|].
  rewrite changed_table by done. destruct v as [target|].
  - destruct Hv as (Hne & Htarget & Hfree). split.
    + apply closed_insert_edge; [done|]. by apply has_mode_table.
    + by apply acyclic_insert_edge.
  - split; [by apply closed_add_root|by apply acyclic_add_root].
Qed.

End ChangeInheritance.

(** X1: in a valid profile, a call of [_change_mode_inheritance] that asks
    for a parent other than the mode itself returns (given fuel beyond the
    number of modes) and leaves a valid profile, whether it changes the
    inheritance, rejects it or raises. *)
Theorem change_inheritance_keeps_valid {Config : Type} (p : Profile Config)
    (fuel : nat) (mode inherit_name : string) :
  valid_profile p → mode ≠ inherit_name →
  Forall (λ d, (size (modes d) < fuel)%nat) (devices p) →
  ∃ fb p', _change_mode_inheritance fuel mode inherit_name p = Some (fb, p') ∧
    valid_profile p'.
Proof.
  intros Hval Hne Hfuel. pose proof Hval as [Hmir Hall].
  rewrite Forall_forall in Hfuel.
  destruct (has_inheritance_cycle_returns p fuel mode inherit_name Hall Hfuel)
    as [r Hr].
  destruct r as [e|[|]].
  1,2: unfold _change_mode_inheritance; rewrite Hr; by eexists _, _.
  destruct (change_outcome fuel mode inherit_name p Hmir Hr)
    as [[-> Hhas]|[-> _]]; [|by eexists _, _].
  eexists _, _. split; [done|].
  set (v := if decide (inherit_name = "None") then None else Some inherit_name).
  apply valid_fmap with (F := insert mode v); [done|].
  intros d Hd Hvd. split; [apply changed_table; by apply Hhas|].
  apply changed_valid; [done|by apply Hhas|].
  unfold v. case_decide as Hnone; [done|].
  unfold has_inheritance_cycle in Hr. rewrite decide_False in Hr by done.
  destruct (devices p) as [|d0 rest] eqn:Hds; [done|].
  apply cycle_walk_accepts in Hr as [Htarget Hfree].
  assert (inherit_table d0 = inherit_table d) as Htable.
  { apply Hmir; rewrite Hds; [apply list_elem_of_here|done]. }
  fold (inherit_table d0) in Hfree. rewrite Htable in Hfree.
  split; [done|]. split; [|done].
  apply has_mode_table. rewrite <- Htable. by apply has_mode_table.
Qed.

Lemma change_inheritance_keeps_valid_witness :
  ∃ fb p', _change_mode_inheritance 4 "radio" "landing"
             Examples.sibling_profile = Some (fb, p') ∧
    valid_profile p'.
Proof.
  apply (change_inheritance_keeps_valid Examples.sibling_profile 4
           "radio" "landing").
  - apply check_profile_sound. vm_compute. reflexivity.
  - discriminate.
  - apply (bool_decide_unpack _). vm_compute. exact I.
Defined.

(** X2: in a valid profile the cycle check on an existing candidate parent
    returns, and it reports a cycle exactly when the candidate already
    inherits, directly or through other modes, from the mode. *)
Theorem cycle_check_exact {Config : Type} (p : Profile Config)
    (d0 : Device Config) (rest : list (Device Config)) (fuel : nat)
    (mode inherit_name : string) :
  valid_profile p → devices p = d0 :: rest →
  inherit_name ≠ "None" → is_Some (modes d0 !! inherit_name) →
  (size (modes d0) ≤ fuel)%nat →
  ∃ b, has_inheritance_cycle fuel p mode inherit_name = Some (inr b) ∧
    (b = true ↔ tc (parent_of (inherit_table d0)) inherit_name mode).
Proof.
  intros [_ Hall] Hds Hname Hin Hfuel.
  rewrite Hds in Hall. apply Forall_cons in Hall as [(_ & Hcl & Hac) _].
  destruct (chain_exists _ inherit_name Hcl Hac) as (chain & Hchain & Hlen).
  { by apply has_mode_table. }
  unfold inherit_table in Hlen. rewrite map_size_fmap in Hlen.
  unfold has_inheritance_cycle. rewrite decide_False, Hds by done.
  pose proof (cycle_walk_complete (modes d0) mode inherit_name chain fuel
                Hchain) as Hwalk.
  rewrite Hwalk by lia. eexists. split; [done|].
  rewrite bool_decide_eq_true. split.
  - by apply chain_of_tail_tc.
  - by apply tc_chain_of_tail.
Qed.

Lemma cycle_check_exact_witness :
  ∃ b, has_inheritance_cycle 3 Examples.manual_profile "Global" "landing"
       = Some (inr b) ∧
    (b = true ↔
     tc (parent_of (inherit_table (mkDevice 2382820288 Examples.manual_modes)))
        "landing" "Global").
Proof.
  apply (cycle_check_exact Examples.manual_profile
           (mkDevice 2382820288 Examples.manual_modes)
           [mkDevice 1 Examples.manual_modes] 3 "Global" "landing").
  - apply check_profile_sound. vm_compute. reflexivity.
  - reflexivity.
  - discriminate.
  - vm_compute. eexists. reflexivity.
  - vm_compute. lia.
Defined.

(** ** Accepted and cleared inheritance *)

Lemma change_accepted {Config : Type} (p : Profile Config)
    (d0 : Device Config) (rest : list (Device Config)) (fuel : nat)
    (A B : string) :
  valid_profile p → devices p = d0 :: rest →
  is_Some (modes d0 !! A) → is_Some (modes d0 !! B) → B ≠ "None" →
  ¬ tc (parent_of (inherit_table d0)) B A →
  (size (modes d0) ≤ fuel)%nat →
  _change_mode_inheritance fuel A B p
    = Some (modes_changed, mkProfile (changed A (Some B) <$> devices p)) ∧
  ∀ d, d ∈ devices p → is_Some (modes d !! A).
Proof.
  intros [Hmir Hall] Hds HA HB HBn Hfree Hfuel.
  assert (d0 ∈ devices p) as Hd0 by (rewrite Hds; apply list_elem_of_here).
  rewrite Forall_forall in Hall. destruct (Hall d0 Hd0) as (_ & Hcl & Hac).
  assert (has_inheritance_cycle fuel p A B = Some (inr false)) as Hcheck.
  { unfold has_inheritance_cycle. rewrite decide_False, Hds by done.
    destruct (chain_exists _ B Hcl Hac) as (chain & Hchain & Hlen).
    { by apply has_mode_table. }
    unfold inherit_table in Hlen. rewrite map_size_fmap in Hlen.
    rewrite (cycle_walk_complete _ A B chain) by (done || lia).
    rewrite bool_decide_eq_false_2; [done|].
    intros Hin. by apply Hfree, (chain_of_tail_tc _ _ chain). }
  destruct (change_outcome fuel A B p Hmir Hcheck) as [[Hrun Hhas]|[_ Hnone]].
  - rewrite decide_False in Hrun by done. done.
  - destruct HA as [md HA]. rewrite (Hnone d0 Hd0) in HA. done.
Qed.

(** X3: the cycle check does not look at the candidate itself: in a valid
    profile, asking for an existing mode [A] (not called "None") to inherit
    from [A] goes through, and afterwards [A] inherits from itself on every
    device, so no device has an acyclic graph any more. *)
Theorem self_inheritance_accepted {Config : Type} (p : Profile Config)
    (d0 : Device Config) (rest : list (Device Config)) (fuel : nat)
    (A : string) :
  valid_profile p → devices p = d0 :: rest →
  is_Some (modes d0 !! A) → A ≠ "None" →
  (size (modes d0) ≤ fuel)%nat →
  ∃ p', _change_mode_inheritance fuel A A p = Some (modes_changed, p') ∧
    length (devices p') = length (devices p) ∧
    Forall (λ d, inherit_table d !! A = Some (Some A) ∧
                 ¬ acyclic (inherit_table d)) (devices p').
Proof.
  intros Hval Hds HA HAn Hfuel.
  destruct (change_accepted p d0 rest fuel A A) as [Hrun Hhas]; try done.
  { destruct Hval as [_ Hall]. rewrite Hds in Hall.
    apply Forall_cons in Hall as [(_ & _ & Hac) _]. apply Hac. }
  eexists. split; [exact Hrun|]. simpl. split; [by rewrite length_fmap|].
  apply Forall_fmap, Forall_forall. intros d Hd. simpl.
  assert (inherit_table (changed A (Some A) d) !! A = Some (Some A)) as Hloop.
  { rewrite changed_table by by apply Hhas. by rewrite lookup_insert_eq. }
  split; [done|]. intros Hac. by apply (acyclic_no_self_loop _ A Hac).
Qed.

Lemma self_inheritance_accepted_witness :
  ∃ p', _change_mode_inheritance 3 "radio" "radio" Examples.sibling_profile
        = Some (modes_changed, p') ∧
    length (devices p') = length (devices Examples.sibling_profile) ∧
    Forall (λ d, inherit_table d !! "radio" = Some (Some "radio") ∧
                 ¬ acyclic (inherit_table d)) (devices p').
Proof.
  apply (self_inheritance_accepted Examples.sibling_profile
           (mkDevice 2382820288 Examples.sibling_modes)
           [mkDevice 1 Examples.sibling_modes] 3 "radio").
  - apply check_profile_sound. vm_compute. reflexivity.
  - reflexivity.
  - vm_compute. eexists. reflexivity.
  - discriminate.
  - vm_compute. lia.
Defined.

(** X4: choosing "None" for a mode present on every device needs no cycle
    walk (any fuel will do): the change is emitted, on every device the mode
    becomes a root while all other pointers stay, and a valid profile stays
    valid. *)
Theorem clearing_inheritance {Config : Type} (p : Profile Config)
    (fuel : nat) (mode : string) :
  Forall (λ d, is_Some (modes d !! mode)) (devices p) →
  ∃ p', _change_mode_inheritance fuel mode "None" p
        = Some (modes_changed, p') ∧
    length (devices p') = length (devices p) ∧
    (∀ i d, devices p !! i = Some d →
       ∃ d', devices p' !! i = Some d' ∧
         hardware_id d' = hardware_id d ∧
         inherit_table d' = <[mode := None]> (inherit_table d)) ∧
    (valid_profile p → valid_profile p').
Proof.
  intros Hall. rewrite Forall_forall in Hall.
  assert (∀ d, d ∈ devices p →
            change_inherit_body mode None d = inr (changed mode None d))
    as Hbody.
  { intros d Hd. destruct (Hall d Hd) as [md Hmd].
    unfold change_inherit_body, changed. by rewrite Hmd. }
  exists (mkProfile (changed mode None <$> devices p)). split.
  { unfold _change_mode_inheritance, has_inheritance_cycle. simpl.
    by rewrite (for_each_device_total _ (changed mode None)). }
  simpl. split; [by rewrite length_fmap|]. split.
  - intros i d Hi. exists (changed mode None d).
    assert (d ∈ devices p) as Hd by (by eapply list_elem_of_lookup_2).
    split; [by rewrite list_lookup_fmap, Hi|]. split.
    + unfold changed. by destruct (modes d !! mode).
    + apply changed_table. by apply Hall.
  - intros Hval. apply valid_fmap with (F := insert mode None); [done|].
    intros d Hd Hvd. split; [apply changed_table; by apply Hall|].
    apply changed_valid; [done|by apply Hall|done].
Qed.

Lemma clearing_inheritance_witness :
  ∃ p', _change_mode_inheritance 0 "landing" "None" Examples.manual_profile
        = Some (modes_changed, p') ∧
    length (devices p') = length (devices Examples.manual_profile) ∧
    (∀ i d, devices Examples.manual_profile !! i = Some d →
       ∃ d', devices p' !! i = Some d' ∧
         hardware_id d' = hardware_id d ∧
         inherit_table d' = <["landing" := None]> (inherit_table d)) ∧
    (valid_profile Examples.manual_profile → valid_profile p').
Proof.
  apply (clearing_inheritance Examples.manual_profile 0 "landing").
  apply (bool_decide_unpack _). vm_compute. exact I.
Defined.

(** ** Failures and unknown modes *)

Section Failures.
Context {Config : Type}.
Implicit Types (d : Device Config) (p : Profile Config)
  (ms : gmap string (Mode Config)).

Lemma set_modes_same d : set_modes (modes d) d = d.
Proof. by destruct d. Qed.

Lemma rewrite_inherit_unreferenced old v ms :
  (∀ k md, ms !! k = Some md → inherit md ≠ Some old) →
  rewrite_inherit old v <$> ms = ms.
Proof.
  intros Hfree. apply map_eq. intros k. rewrite lookup_fmap.
  destruct (ms !! k) as [md|] eqn:Hk; [|done]. simpl. f_equal.
  unfold rewrite_inherit. rewrite decide_False; [done|]. by apply (Hfree k).
Qed.

Lemma closed_unreferenced d old :
  closed (inherit_table d) → modes d !! old = None →
  ∀ k md, modes d !! k = Some md → inherit md ≠ Some old.
Proof.
  intros Hcl Hold k md Hk Hmd.
  apply (closed_no_pointer_to (inherit_table d) old k Hcl).
  - by rewrite inherit_table_lookup, Hold.
  - by rewrite inherit_table_lookup, Hk, <- Hmd.
Qed.

Lemma reassign_absent old v d :
  closed (inherit_table d) → modes d !! old = None →
  reassign_body old v d = d.
Proof.
  intros Hcl Hold. unfold reassign_body.
  rewrite rewrite_inherit_unreferenced by by apply closed_unreferenced.
  apply set_modes_same.
Qed.

Lemma fmap_devices_id (g : Device Config → Device Config) p :
  (∀ d, d ∈ devices p → g d = d) → mkProfile (g <$> devices p) = p.
Proof.
  intros Hg. rewrite <- (profile_eta p) at 2. f_equal.
  rewrite <- (list_fmap_id (devices p)) at 2.
  apply list_fmap_ext. intros i d Hi. apply Hg.
  by eapply list_elem_of_lookup_2.
Qed.

End Failures.

(** X5: on a valid profile none of the four operations leaves a partial
    change behind: whenever one of them ends otherwise than by emitting
    [modes_changed] (error message, silent rejection, cancelled dialog or
    exception), the profile is exactly what it was. *)
Theorem failed_operations_change_nothing {Config : Type}
    (empty_config : Config) (p : Profile Config) :
  valid_profile p →
  (∀ dialog fb p',
     _add_mode_cb empty_config dialog p = (fb, p') →
     fb ≠ modes_changed → p' = p) ∧
  (∀ dialog mode_name fb p',
     _rename_mode dialog mode_name p = (fb, p') →
     fb ≠ modes_changed → p' = p) ∧
  (∀ mode_name fb p',
     _delete_mode mode_name p = (fb, p') → fb ≠ modes_changed → p' = p) ∧
  (∀ fuel mode inherit_name fb p',
     _change_mode_inheritance fuel mode inherit_name p = Some (fb, p') →
     fb ≠ modes_changed → p' = p).
Proof.
  intros [Hmir Hall]. rewrite Forall_forall in Hall. repeat split.
  - intros [new [|]] fb p'.
    2: { unfold _add_mode_cb. by intros [= <- <-]. }
    destruct (decide (new ∈ mode_list p)) as [Hin|Hnew].
    + unfold _add_mode_cb. rewrite decide_True by done. by intros [= <- <-].
    + rewrite add_outcome by done. by intros [= <- <-].
  - intros [new [|]] old fb p'.
    2: { unfold _rename_mode. by intros [= <- <-]. }
    destruct (decide (new ∈ mode_list p)) as [Hin|Hnew].
    + unfold _rename_mode. rewrite decide_True by done. by intros [= <- <-].
    + destruct (rename_outcome old new p Hnew Hmir) as [[-> _]|[-> _]];
        by intros [= <- <-].
  - intros M fb p'.
    assert (devices p = [] ∨ ∃ d0 rest, devices p = d0 :: rest)
      as [Hds|(d0 & rest & Hds)] by (destruct (devices p); eauto).
    { unfold _delete_mode. rewrite Hds. by intros [= <- <-]. }
    destruct (delete_outcome M p d0 rest Hds Hmir) as [[-> _]|[-> Hnone]];
      intros [= <- <-]; [done|]. intros _.
    apply fmap_devices_id. intros d Hd. apply reassign_absent.
    + apply (Hall d Hd).
    + by apply Hnone.
  - intros fuel mode inherit_name fb p'.
    destruct (has_inheritance_cycle fuel p mode inherit_name)
      as [[e|[|]]|] eqn:Hcheck.
    1,2,4: unfold _change_mode_inheritance; rewrite Hcheck;
      intros ?; by simplify_eq.
    destruct (change_outcome fuel mode inherit_name p Hmir Hcheck)
      as [[-> _]|[-> _]]; intros ?; by simplify_eq.
Qed.

Lemma failed_operations_change_nothing_witness :
  snd (_delete_mode "missing" Examples.manual_profile)
  = Examples.manual_profile.
Proof.
  destruct (failed_operations_change_nothing tt Examples.manual_profile)
    as (_ & _ & Hdelete & _).
  { apply check_profile_sound. vm_compute. reflexivity. }
  apply (Hdelete "missing" (raised (KeyError "missing"))).
  - vm_compute. reflexivity.
  - discriminate.
Defined.

(** X6: on a valid profile with at least one device, deleting or renaming a
    mode name that no device knows raises [KeyError] for that name and
    leaves the profile as it was. *)
Theorem unknown_mode_raises_KeyError {Config : Type} (p : Profile Config)
    (d0 : Device Config) (rest : list (Device Config))
    (mode_name new_name : string) :
  valid_profile p → devices p = d0 :: rest →
  mode_name ∉ mode_list p → new_name ∉ mode_list p →
  _delete_mode mode_name p = (raised (KeyError mode_name), p) ∧
  _rename_mode (new_name, true) mode_name p
    = (raised (KeyError mode_name), p).
Proof.
  intros [Hmir Hall] Hds Hold Hnew. rewrite Forall_forall in Hall.
  assert (d0 ∈ devices p) as Hd0 by (rewrite Hds; apply list_elem_of_here).
  pose proof (not_in_mode_list mode_name p d0 Hold Hd0) as Hd0old.
  split.
  - destruct (delete_outcome mode_name p d0 rest Hds Hmir)
      as [[_ Hhas]|[-> Hnone]].
    { destruct (Hhas d0 Hd0) as [md Hmd]. congruence. }
    f_equal. apply fmap_devices_id. intros d Hd. apply reassign_absent.
    + apply (Hall d Hd).
    + by apply Hnone.
  - destruct (rename_outcome mode_name new_name p Hnew Hmir)
      as [[_ Hhas]|[-> _]]; [|done].
    destruct (Hhas d0 Hd0) as [md Hmd]. congruence.
Qed.

Lemma unknown_mode_raises_KeyError_witness :
  _delete_mode "combat" Examples.manual_profile
    = (raised (KeyError "combat"), Examples.manual_profile) ∧
  _rename_mode ("Base", true) "combat" Examples.manual_profile
    = (raised (KeyError "combat"), Examples.manual_profile).
Proof.
  apply (unknown_mode_raises_KeyError Examples.manual_profile
           (mkDevice 2382820288 Examples.manual_modes)
           [mkDevice 1 Examples.manual_modes] "combat" "Base").
  - apply check_profile_sound. vm_compute. reflexivity.
  - reflexivity.
  - vm_compute. intros Hin. discriminate Hin.
  - vm_compute. intros Hin. discriminate Hin.
Defined.

(** ** Round trips *)

Section RoundTrips.
Context {Config : Type}.
Variable empty_config : Config.
Implicit Types (d : Device Config) (p : Profile Config)
  (md : Mode Config) (ms : gmap string (Mode Config)).

Lemma rewrite_inherit_back old new md :
  inherit md ≠ Some new →
  rewrite_inherit new (Some old) (rewrite_inherit old (Some new) md) = md.
Proof.
  intros Hnew. unfold rewrite_inherit.
  destruct (decide (inherit md = Some old)) as [Hold|Hold]; simpl.
  - rewrite decide_True by done. destruct md as [n i c]. simpl in *.
    by subst.
  - by rewrite decide_False.
Qed.

Lemma renamed_back old new d md :
  valid_device d → modes d !! old = Some md → modes d !! new = None →
  renamed new old (renamed old new d) = d.
Proof.
  intros (Hk & Hcl & Hac) Hold Hnew. assert (old ≠ new) as Hne by congruence.
  assert (∀ k mk, modes d !! k = Some mk → inherit mk ≠ Some new) as Hfree
    by by apply closed_unreferenced.
  assert (inherit md ≠ Some old) as Hloop.
  { intros Hmd. apply (acyclic_no_self_loop _ old Hac).
    by rewrite inherit_table_lookup, Hold, <- Hmd. }
  assert (name md = old) as Hname by exact (Hk old md Hold).
  set (md1 := rewrite_inherit old (Some new) (set_name new md)).
  assert (md1 = set_name new md) as Hmd1.
  { unfold md1, rewrite_inherit. by rewrite decide_False. }
  assert (modes (renamed old new d) !! new = Some md1) as Hnew1.
  { rewrite (renamed_lookup old new md) by done.
    by rewrite decide_False, decide_True by done. }
  rewrite <- (set_modes_same d) at 2. unfold renamed at 1.
  rewrite Hnew1. unfold set_modes. f_equal.
  { unfold renamed. by rewrite Hold. }
  apply map_eq. intros k.
  rewrite lookup_fmap, lookup_delete.
  destruct (decide (new = k)) as [<-|Hkn]; [by rewrite Hnew|].
  rewrite lookup_insert. destruct (decide (old = k)) as [<-|Hko].
  - simpl. rewrite Hold, Hmd1. f_equal.
    unfold rewrite_inherit, set_name. simpl.
    rewrite decide_False by by apply (Hfree old).
    destruct md; simpl in *; by subst.
  - rewrite (renamed_lookup old new md) by done.
    rewrite !decide_False by done.
    destruct (modes d !! k) as [mk|] eqn:Hk'; [|done]. simpl. f_equal.
    apply rewrite_inherit_back. by apply (Hfree k).
Qed.

Lemma removed_added new v d :
  closed (inherit_table d) → modes d !! new = None →
  removed new v (added empty_config new d) = d.
Proof.
  intros Hcl Hnew. rewrite <- (set_modes_same d) at 2.
  unfold removed, added, set_modes. simpl. f_equal.
  rewrite fmap_insert, delete_insert_eq.
  rewrite rewrite_inherit_unreferenced by by apply closed_unreferenced.
  by apply delete_id.
Qed.

End RoundTrips.

(** X7: on a valid profile, renaming a mode that every device has to a name
    no device knows, and then renaming it back, gives back exactly the
    profile one started from (names, pointers and bindings). *)
Theorem rename_round_trip {Config : Type} (p : Profile Config)
    (old new : string) :
  valid_profile p → new ∉ mode_list p →
  Forall (λ d, is_Some (modes d !! old)) (devices p) →
  ∃ p1, _rename_mode (new, true) old p = (modes_changed, p1) ∧
    _rename_mode (old, true) new p1 = (modes_changed, p).
Proof.
  intros [Hmir Hval] Hnew Hall.
  eexists. split; [by apply rename_success|].
  rewrite Forall_forall in Hall, Hval.
  assert (∀ d, d ∈ devices p →
            ∃ md, modes d !! old = Some md ∧ modes d !! new = None ∧
                  old ≠ new) as Hdev.
  { intros d Hd. destruct (Hall d Hd) as [md Hmd]. exists md.
    pose proof (not_in_mode_list new p d Hnew Hd). repeat split; congruence. }
  rewrite rename_success.
  - simpl. f_equal. rewrite <- list_fmap_compose.
    apply fmap_devices_id. intros d Hd. simpl.
    destruct (Hdev d Hd) as (md & Hold & Hdn & _).
    by apply renamed_back with md; [apply Hval| |].
  - rewrite mode_list_spec. simpl.
    intros (d' & (d & -> & Hd)%list_elem_of_fmap & [m Hm]).
    destruct (Hdev d Hd) as (md & Hold & _ & Hne).
    rewrite (renamed_lookup old new md) in Hm by done.
    by rewrite decide_True in Hm.
  - simpl. apply Forall_fmap, Forall_forall. intros d Hd. simpl.
    destruct (Hdev d Hd) as (md & Hold & _ & Hne).
    rewrite (renamed_lookup old new md) by done.
    rewrite decide_False, decide_True by done. by eexists.
Qed.

Lemma rename_round_trip_witness :
  ∃ p1, _rename_mode ("Base", true) "Global" Examples.manual_profile
        = (modes_changed, p1) ∧
    _rename_mode ("Global", true) "Base" p1
    = (modes_changed, Examples.manual_profile).
Proof.
  apply (rename_round_trip Examples.manual_profile "Global" "Base").
  - apply check_profile_sound. vm_compute. reflexivity.
  - vm_compute. intros Hin. discriminate Hin.
  - apply (bool_decide_unpack _). vm_compute. exact I.
Defined.

(** X8: on a profile with at least one device and no dangling pointers,
    adding a mode under a name no device knows and deleting it again gives
    back exactly the profile one started from. *)
Theorem add_then_delete {Config : Type} (empty_config : Config)
    (p : Profile Config) (d0 : Device Config) (rest : list (Device Config))
    (new : string) :
  devices p = d0 :: rest →
  Forall (λ d, closed (inherit_table d)) (devices p) →
  new ∉ mode_list p →
  ∃ p1, _add_mode_cb empty_config (new, true) p = (modes_changed, p1) ∧
    Forall (λ d, ∃ md, modes d !! new = Some md ∧ inherit md = None)
      (devices p1) ∧
    _delete_mode new p1 = (modes_changed, p).
Proof.
  intros Hds Hcl Hnew. rewrite Forall_forall in Hcl.
  eexists. split; [by apply add_outcome|]. simpl. split.
  { apply Forall_fmap, Forall_forall. intros d Hd. simpl.
    rewrite lookup_insert_eq. by eexists. }
  rewrite (delete_success new _ (added empty_config new d0)
             (added empty_config new <$> rest)).
  - simpl. f_equal. rewrite <- list_fmap_compose.
    apply fmap_devices_id. intros d Hd. simpl. apply removed_added.
    + by apply Hcl.
    + by apply (not_in_mode_list new p).
  - simpl. by rewrite Hds.
  - simpl. apply Forall_fmap, Forall_forall. intros d Hd. simpl.
    rewrite lookup_insert_eq. by eexists.
Qed.

Lemma add_then_delete_witness :
  ∃ p1, _add_mode_cb tt ("combat", true) Examples.manual_profile
        = (modes_changed, p1) ∧
    Forall (λ d, ∃ md, modes d !! "combat" = Some md ∧ inherit md = None)
      (devices p1) ∧
    _delete_mode "combat" p1 = (modes_changed, Examples.manual_profile).
Proof.
  assert (valid_profile Examples.manual_profile) as [_ Hval]
    by (apply check_profile_sound; vm_compute; reflexivity).
  apply (add_then_delete tt Examples.manual_profile
           (mkDevice 2382820288 Examples.manual_modes)
           [mkDevice 1 Examples.manual_modes] "combat").
  - reflexivity.
  - eapply Forall_impl; [exact Hval|]. intros d (_ & Hcl & _). exact Hcl.
  - vm_compute. intros Hin. discriminate Hin.
Defined.

(** ** The mode names after an operation *)

Section Names.
Context {Config : Type}.
Variable empty_config : Config.
Implicit Types (d : Device Config) (p : Profile Config) (x : string).

Lemma added_has new d x :
  is_Some (modes (added empty_config new d) !! x)
  ↔ x = new ∨ is_Some (modes d !! x).
Proof.
  simpl. rewrite lookup_insert. case_decide as Hx.
  - split; [by left|by eexists].
  - split; [by right|]. by intros [?|?]; simplify_eq.
Qed.

Lemma removed_has old v d x :
  is_Some (modes (removed old v d) !! x) ↔ x ≠ old ∧ is_Some (modes d !! x).
Proof.
  rewrite removed_lookup. case_decide as Hx.
  - split; [by intros [? ?]|by intros [? _]].
  - rewrite fmap_is_Some. by split; [|intros [_ ?]].
Qed.

Lemma renamed_has old new d x :
  is_Some (modes d !! old) → old ≠ new →
  is_Some (modes (renamed old new d) !! x)
  ↔ x ≠ old ∧ (x = new ∨ is_Some (modes d !! x)).
Proof.
  intros [md Hmd] Hne. rewrite (renamed_lookup old new md) by done.
  destruct (decide (x = old)) as [->|Hxo].
  { split; [by intros [? ?]|by intros [? _]]. }
  destruct (decide (x = new)) as [->|Hxn].
  { split; [by split; [|left]|by eexists]. }
  rewrite fmap_is_Some. split; [by split; [|right]|].
  by intros [_ [?|?]]; simplify_eq.
Qed.

Lemma mode_list_after (g : Device Config → Device Config) p x :
  x ∈ mode_list (mkProfile (g <$> devices p))
  ↔ ∃ d, d ∈ devices p ∧ is_Some (modes (g d) !! x).
Proof.
  rewrite mode_list_spec. simpl. split.
  - intros (d' & (d & -> & Hd)%list_elem_of_fmap & Hx). by exists d.
  - intros (d & Hd & Hx). exists (g d). split; [|done].
    apply list_elem_of_fmap. by exists d.
Qed.

End Names.

(** X9: on a profile with at least one device, a successful add, rename or
    delete changes the set of mode names as expected: the new name is added,
    the old name is replaced by the new one, the deleted name is removed;
    and adding the same name a second time is refused with the error
    message. *)
Theorem mode_names_after_operations {Config : Type} (empty_config : Config)
    (p : Profile Config) (d0 : Device Config) (rest : list (Device Config)) :
  devices p = d0 :: rest →
  (∀ new, new ∉ mode_list p →
     ∃ p1, _add_mode_cb empty_config (new, true) p = (modes_changed, p1) ∧
       mode_list p1 = {[new]} ∪ mode_list p ∧
       _add_mode_cb empty_config (new, true) p1 = (display_error new, p1)) ∧
  (∀ old new, new ∉ mode_list p →
     Forall (λ d, is_Some (modes d !! old)) (devices p) →
     ∃ p1, _rename_mode (new, true) old p = (modes_changed, p1) ∧
       mode_list p1 = {[new]} ∪ (mode_list p ∖ {[old]})) ∧
  (∀ mode_name,
     Forall (λ d, is_Some (modes d !! mode_name)) (devices p) →
     ∃ p1, _delete_mode mode_name p = (modes_changed, p1) ∧
       mode_list p1 = mode_list p ∖ {[mode_name]}).
Proof.
  intros Hds.
  assert (d0 ∈ devices p) as Hd0 by (rewrite Hds; apply list_elem_of_here).
  repeat split.
  - intros new Hnew. eexists. split; [by apply add_outcome|].
    assert (mode_list (mkProfile (added empty_config new <$> devices p))
            = {[new]} ∪ mode_list p) as Hnames.
    { apply set_eq. intros x.
      rewrite mode_list_after, elem_of_union, elem_of_singleton,
        mode_list_spec.
      split.
      - intros (d & Hd & [->|Hx]%added_has); [by left|right; by exists d].
      - intros [->|(d & Hd & Hx)].
        + exists d0. split; [done|]. apply added_has. by left.
        + exists d. split; [done|]. apply added_has. by right. }
    split; [done|]. unfold _add_mode_cb. rewrite decide_True; [done|].
    rewrite Hnames. apply elem_of_union_l, elem_of_singleton. done.
  - intros old new Hnew Hall. eexists. split; [by apply rename_success|].
    rewrite Forall_forall in Hall.
    assert (old ≠ new) as Hne.
    { intros ->. apply Hnew, mode_list_spec. exists d0. split; [done|].
      by apply Hall. }
    apply set_eq. intros x.
    rewrite mode_list_after, elem_of_union, elem_of_singleton,
      elem_of_difference, elem_of_singleton, mode_list_spec.
    split.
    + intros (d & Hd & Hx). apply renamed_has in Hx as [Hxo [->|Hx]];
        [by left|right; split; [by exists d|done]|by apply Hall|done].
    + intros [->|[(d & Hd & Hx) Hxo]].
      * exists d0. split; [done|].
        apply renamed_has; [by apply Hall|done|]. split; [done|by left].
      * exists d. split; [done|].
        apply renamed_has; [by apply Hall|done|]. split; [done|by right].
  - intros mode_name Hall. eexists.
    split; [by apply (delete_success mode_name p d0 rest)|].
    apply set_eq. intros x.
    rewrite mode_list_after, elem_of_difference, elem_of_singleton,
      mode_list_spec.
    split.
    + intros (d & Hd & [Hxo Hx]%removed_has). split; [by exists d|done].
    + intros [(d & Hd & Hx) Hxo]. exists d. split; [done|].
      by apply removed_has.
Qed.

Lemma mode_names_after_operations_witness :
  ∃ p1, _delete_mode "radio" Examples.manual_profile = (modes_changed, p1) ∧
    mode_list p1 = mode_list Examples.manual_profile ∖ {["radio"]}.
Proof.
  destruct (mode_names_after_operations tt Examples.manual_profile
              (mkDevice 2382820288 Examples.manual_modes)
              [mkDevice 1 Examples.manual_modes]) as (_ & _ & Hdelete).
  { reflexivity. }
  apply (Hdelete "radio").
  apply (bool_decide_unpack _). vm_compute. exact I.
Defined.

(** ** Devices that disagree *)

Lemma for_each_device_stops {Config : Type}
    (body : Device Config → exn + Device Config)
    (g : Device Config → Device Config)
    (before : list (Device Config)) (d : Device Config)
    (after : list (Device Config)) (e : exn) :
  (∀ d', d' ∈ before → body d' = inr (g d')) → body d = inl e →
  for_each_device body (before ++ d :: after)%list
  = (Some e, ((g <$> before) ++ d :: after)%list).
Proof.
  intros Hbefore Hd. induction before as [|d' before IH]; simpl.
  - by rewrite Hd.
  - rewrite (Hbefore d') by apply list_elem_of_here.
    rewrite IH; [done|]. intros d'' Hd''. apply Hbefore.
    by apply list_elem_of_further.
Qed.

(** X10: when a device lacks the mode that is renamed, deleted or given a
    new parent, the operation raises [KeyError] at that device: the devices
    before it in the profile keep the change already made to them, that
    device and the ones after it are left as they were by rename and by the
    change of inheritance.  For delete, the first device storing its modes
    under their own names, the re-parenting loop has run over every device
    (each mode that inherited from the deleted name has the parent that
    name has on the first device), and only the devices before the failing
    one have lost the mode. *)
Theorem operations_stop_at_first_missing {Config : Type}
    (p : Profile Config) (before : list (Device Config))
    (d : Device Config) (after : list (Device Config)) (mode_name : string) :
  devices p = (before ++ d :: after)%list →
  Forall (λ d', is_Some (modes d' !! mode_name)) before →
  modes d !! mode_name = None →
  (∀ new, new ∉ mode_list p →
     _rename_mode (new, true) mode_name p
     = (raised (KeyError mode_name),
        mkProfile ((renamed mode_name new <$> before) ++ d :: after)%list)) ∧
  (∀ fuel,
     _change_mode_inheritance fuel mode_name "None" p
     = Some (raised (KeyError mode_name),
             mkProfile ((changed mode_name None <$> before) ++ d :: after)%list)) ∧
  (∀ d0 rest, devices p = d0 :: rest → keyed (modes d0) →
     let v := modes d0 !! mode_name ≫= inherit in
     ∃ p', _delete_mode mode_name p = (raised (KeyError mode_name), p') ∧
       p' = mkProfile ((removed mode_name v <$> before) ++
                       (reassign_body mode_name v <$> d :: after))%list ∧
       ∀ i di, devices p !! i = Some di →
         ∃ di', devices p' !! i = Some di' ∧
           hardware_id di' = hardware_id di ∧
           ((i < length before)%nat → modes di' !! mode_name = None) ∧
           ∀ X, X ≠ mode_name ∨ (length before ≤ i)%nat →
             match modes di !! X with
             | None => modes di' !! X = None
             | Some md =>
                 modes di' !! X
                 = Some (if decide (inherit md = Some mode_name)
                         then mkMode (name md) v (config md)
                         else md)
             end).
Proof.
  intros Hds Hbefore Hd. rewrite Forall_forall in Hbefore.
  split; [|split].
  - intros new Hnew. unfold _rename_mode. rewrite decide_False by done.
    rewrite Hds.
    rewrite (for_each_device_stops _ (renamed mode_name new) _ _ _
               (KeyError mode_name)); [done| |].
    + intros d' Hd'. destruct (Hbefore d' Hd') as [md Hmd].
      unfold rename_body, renamed. by rewrite Hmd.
    + unfold rename_body. by rewrite Hd.
  - intros fuel. unfold _change_mode_inheritance, has_inheritance_cycle.
    simpl. rewrite Hds.
    rewrite (for_each_device_stops _ (changed mode_name None) _ _ _
               (KeyError mode_name)); [done| |].
    + intros d' Hd'. destruct (Hbefore d' Hd') as [md Hmd].
      unfold change_inherit_body, changed. by rewrite Hmd.
    + unfold change_inherit_body. by rewrite Hd.
  - intros d0 rest Hds0 Hkeyed v.
    assert (parent_of_deleted (modes d0) mode_name = v) as Hparent
      by by apply parent_of_deleted_keyed.
    assert (∀ (e : Device Config) X,
              match modes e !! X with
              | None => (rewrite_inherit mode_name v <$> modes e) !! X = None
              | Some md =>
                  (rewrite_inherit mode_name v <$> modes e) !! X
                  = Some (if decide (inherit md = Some mode_name)
                          then mkMode (name md) v (config md)
                          else md)
              end) as Hreassigned.
    { intros e X. rewrite lookup_fmap.
      destruct (modes e !! X) as [md|]; [|done]. simpl.
      unfold rewrite_inherit, set_inherit. by case_decide. }
    eexists. split; [|split; [done|]].
    + unfold _delete_mode. rewrite Hds0, Hparent.
      rewrite <- Hds0, Hds, fmap_app, fmap_cons.
      rewrite (for_each_device_stops _
                 (λ d', set_modes (delete mode_name (modes d')) d') _ _ _
                 (KeyError mode_name)).
      * simpl. by rewrite <- list_fmap_compose.
      * intros d'' (d' & -> & Hd')%list_elem_of_fmap.
        by rewrite delete_body_reassigned by by apply Hbefore.
      * unfold delete_body. simpl. by rewrite lookup_fmap, Hd.
    + intros i di Hi. rewrite Hds in Hi. simpl.
      destruct (decide (i < length before)%nat) as [Hlt|Hge].
      * rewrite lookup_app_l in Hi by done.
        exists (removed mode_name v di). split.
        { rewrite lookup_app_l by (by rewrite length_fmap).
          by rewrite list_lookup_fmap, Hi. }
        split; [done|]. split.
        { intros _. by rewrite removed_lookup, decide_True. }
        intros X [HX|HX]; [|lia].
        rewrite removed_lookup, decide_False by done.
        rewrite <- lookup_fmap. apply Hreassigned.
      * rewrite lookup_app_r in Hi by lia.
        exists (reassign_body mode_name v di). split.
        { rewrite lookup_app_r by (rewrite length_fmap; lia).
          rewrite length_fmap, <- fmap_cons. by rewrite list_lookup_fmap, Hi. }
        split; [done|]. split; [lia|].
        intros X _. apply Hreassigned.
Qed.

Lemma operations_stop_at_first_missing_witness :
  _rename_mode ("wireless", true) "radio" Examples.ragged_profile
  = (raised (KeyError "radio"),
     mkProfile ((renamed "radio" "wireless" <$>
                   [mkDevice 1 Examples.manual_modes]) ++
                mkDevice 2 {["Global" := Examples.mode "Global" None]}
                :: [])%list) ∧
  ∃ p', _delete_mode "radio" Examples.ragged_profile
        = (raised (KeyError "radio"), p') ∧
    (inherit_table <$> devices p') !! 0%nat ≫= (.!! "landing")
      = Some (Some "Global") ∧
    (modes <$> devices p') !! 0%nat ≫= (.!! "radio") = None.
Proof.
  destruct (operations_stop_at_first_missing Examples.ragged_profile
              [mkDevice 1 Examples.manual_modes]
              (mkDevice 2 {["Global" := Examples.mode "Global" None]}) []
              "radio") as (Hrename & _ & Hdelete).
  - reflexivity.
  - apply (bool_decide_unpack _). vm_compute. exact I.
  - vm_compute. reflexivity.
  - split.
    + apply Hrename. vm_compute. intros Hin. discriminate Hin.
    + destruct (Hdelete (mkDevice 1 Examples.manual_modes)
                  [mkDevice 2 {["Global" := Examples.mode "Global" None]}])
        as (p' & Hrun & -> & _).
      * reflexivity.
      * unfold keyed. apply (bool_decide_unpack _). vm_compute. exact I.
      * eexists. split; [exact Hrun|]. split; vm_compute; reflexivity.
Defined.

(** ** Sorting strings *)

Lemma string_le_lt (a b : string) :
  string_le a b ↔ a = b ∨ OrderedTypeEx.String_as_OT.lt a b.
Proof.
  unfold string_le, String.leb.
  pose proof (OrderedTypeEx.String_as_OT.cmp_eq a b) as Heq.
  pose proof (OrderedTypeEx.String_as_OT.cmp_lt a b) as Hlt.
  unfold OrderedTypeEx.String_as_OT.cmp in *.
  destruct (String.compare a b) eqn:Hcmp.
  - split; [intros _; left; by apply Heq|done].
  - split; [intros _; right; by apply Hlt|done].
  - split; [done|]. intros [H|H]; [apply Heq in H|apply Hlt in H]; done.
Qed.

#[global] Instance string_le_total : Total string_le.
Proof. intros a b. apply String.leb_total. Qed.

#[global] Instance string_le_trans : Transitive string_le.
Proof.
  intros a b c. rewrite !string_le_lt.
  intros [->|Hab] [->|Hbc]; auto.
  right. by eapply OrderedTypeEx.String_as_OT.lt_trans.
Qed.

#[global] Instance string_le_antisymm : AntiSymm (=) string_le.
Proof. intros a b. apply String.leb_antisym. Qed.

Lemma StronglySorted_sublist {A} (R : relation A) (l1 l2 : list A) :
  l1 `sublist_of` l2 → StronglySorted R l2 → StronglySorted R l1.
Proof.
  induction 1 as [|x l1 l2 Hsub IH|x l1 l2 Hsub IH]; intros Hsorted.
  - done.
  - apply StronglySorted_inv in Hsorted as [Hrest Hx].
    constructor; [by apply IH|].
    rewrite Forall_forall in Hx |- *. intros y Hy.
    apply Hx. by eapply elem_of_sublist.
  - apply StronglySorted_inv in Hsorted as [Hrest _]. by apply IH.
Qed.

Lemma sorted_spec (l : list string) :
  StronglySorted string_le (sorted l) ∧ sorted l ≡ₚ l.
Proof.
  split; [apply StronglySorted_merge_sort; apply _|apply merge_sort_Permutation].
Qed.

(** Sorting is determined by the elements alone. *)
Lemma sorted_unique (l1 l2 : list string) :
  l1 ≡ₚ l2 → StronglySorted string_le l1 → sorted l2 = l1.
Proof.
  intros Hperm Hsorted. destruct (sorted_spec l2) as [Hs Hp].
  apply (StronglySorted_unique string_le); [done|done|]. by rewrite Hp.
Qed.

(** ** The mode list shown by the dialog *)

Lemma collect_modes_keyed {Config : Type}
    (mode_list : gmap string (option string))
    (ms : gmap string (Mode Config)) :
  keyed ms → collect_modes mode_list ms = mode_list ∪ (inherit <$> ms).
Proof.
  unfold collect_modes, keyed.
  apply (map_fold_weak_ind (λ r (m : gmap string (Mode Config)),
    map_Forall (λ k md, name md = k) m → r = mode_list ∪ (inherit <$> m))).
  - intros _. by rewrite fmap_empty, (right_id ∅ (∪)).
  - intros k md m r Hk IH Hall.
    apply map_Forall_insert in Hall as [Hname Hrest]; [|done].
    rewrite (IH Hrest), Hname, fmap_insert.
    assert ((inherit <$> m) !! k = None) as Hk' by by rewrite lookup_fmap, Hk.
    destruct (mode_list !! k) as [v|] eqn:Hlist.
    + rewrite decide_True by (rewrite (lookup_union_Some_l _ _ _ v); eauto).
      apply map_eq. intros j. rewrite !lookup_union.
      destruct (decide (k = j)) as [<-|Hj].
      * by rewrite Hlist, Hk', lookup_insert_eq.
      * by rewrite lookup_insert_ne.
    + rewrite decide_False.
      * by apply insert_union_r.
      * rewrite lookup_union_r by done. rewrite Hk'. by intros [? ?].
Qed.

(** X11: for a valid profile the mode list the dialog builds is the
    inheritance table of any of its devices (and is empty for a profile
    without devices). *)
Theorem layout_shows_inherit_table {Config : Type} (p : Profile Config) :
  valid_profile p →
  (devices p = [] → layout_mode_list p = ∅) ∧
  Forall (λ d, layout_mode_list p = inherit_table d) (devices p).
Proof.
  intros [Hmir Hall]. split.
  { intros Hds. unfold layout_mode_list. by rewrite Hds. }
  assert (∀ (ds : list (Device Config)) (t acc : gmap string (option string)),
            Forall (λ d, keyed (modes d) ∧ inherit_table d = t) ds →
            acc = ∅ ∨ acc = t →
            ds ≠ [] ∨ acc = t →
            fold_left collect_modes (modes <$> ds) acc = t) as Hfold.
  { induction ds as [|d ds IH]; intros t acc Hds Hacc Hne.
    - destruct Hne as [?|?]; done.
    - apply Forall_cons in Hds as [[Hk Ht] Hds]. simpl.
      apply IH; [done| |].
      + right. rewrite collect_modes_keyed by done.
        fold (inherit_table d). rewrite Ht.
        destruct Hacc as [->| ->]; [by rewrite (left_id ∅ (∪))|].
        by rewrite (idemp (∪)).
      + right. rewrite collect_modes_keyed by done.
        fold (inherit_table d). rewrite Ht.
        destruct Hacc as [->| ->]; [by rewrite (left_id ∅ (∪))|].
        by rewrite (idemp (∪)). }
  rewrite Forall_forall in Hall |- *. intros d Hd.
  unfold layout_mode_list. apply Hfold.
  - apply Forall_forall. intros d' Hd'. split; [apply (Hall d' Hd')|].
    by apply Hmir.
  - by left.
  - left. intros Hds. rewrite Hds in Hd. by apply elem_of_nil in Hd.
Qed.

Lemma layout_shows_inherit_table_witness :
  (devices Examples.manual_profile = [] →
   layout_mode_list Examples.manual_profile = ∅) ∧
  Forall (λ d, layout_mode_list Examples.manual_profile = inherit_table d)
    (devices Examples.manual_profile).
Proof.
  apply (layout_shows_inherit_table Examples.manual_profile).
  apply check_profile_sound. vm_compute. reflexivity.
Defined.

(** X12: the inheritance drop-down of a mode offers "None" first and then
    every other mode name of the list, each once and in sorted order; the
    mode itself is offered only if it is called "None". *)
Theorem dropdown_offers_other_modes
    (mode_list : gmap string (option string)) (mode : string) :
  (∀ x, x ∈ dropdown_items mode_list mode
        ↔ x = "None" ∨ (is_Some (mode_list !! x) ∧ x ≠ mode)) ∧
  StronglySorted string_le (tail (dropdown_items mode_list mode)) ∧
  NoDup (tail (dropdown_items mode_list mode)) ∧
  (mode ∈ dropdown_items mode_list mode ↔ mode = "None") ∧
  head (dropdown_items mode_list mode) = Some "None" ∧
  (∀ x, x ∈ tail (dropdown_items mode_list mode)
        ↔ is_Some (mode_list !! x) ∧ x ≠ mode).
Proof.
  destruct (sorted_spec (map_to_list mode_list).*1) as [Hsorted Hperm].
  assert (∀ x, x ∈ dropdown_items mode_list mode
               ↔ x = "None" ∨ (is_Some (mode_list !! x) ∧ x ≠ mode)) as Hin.
  { intros x. unfold dropdown_items.
    rewrite elem_of_cons, list_elem_of_filter, Hperm, list_elem_of_fmap.
    split.
    - intros [->|[Hx ([k v] & -> & Hkv)]]; [by left|right].
      apply elem_of_map_to_list in Hkv. split; [by eexists|done].
    - intros [->|[[v Hv] Hx]]; [by left|right]. split; [done|].
      exists (x, v). split; [done|]. by apply elem_of_map_to_list. }
  split; [done|]. simpl. split; [|split; [|split; [|split; [done|]]]].
  - eapply StronglySorted_sublist; [apply sublist_filter; apply _|done].
  - apply NoDup_filter. rewrite Hperm. apply NoDup_fst_map_to_list.
  - rewrite Hin. split; [by intros [?|[_ ?]]|by left].
  - intros x. rewrite list_elem_of_filter, Hperm, list_elem_of_fmap. split.
    + intros [Hx ([k v] & -> & Hkv)].
      apply elem_of_map_to_list in Hkv. split; [by eexists|done].
    + intros [[v Hv] Hx]. split; [done|].
      exists (x, v). split; [done|]. by apply elem_of_map_to_list.
Qed.

(** ** Python list indices *)

Lemma py_index_inside {A} (l : list A) (i : Z) :
  (0 ≤ i < Z.of_nat (length l))%Z → py_index l i = Some (Z.to_nat i).
Proof. intros Hi. unfold py_index. by rewrite decide_True. Qed.

Lemma py_index_from_end {A} (l : list A) (i : Z) :
  (- Z.of_nat (length l) ≤ i < 0)%Z →
  py_index l i = Some (Z.to_nat (Z.of_nat (length l) + i)).
Proof.
  intros Hi. unfold py_index.
  rewrite decide_False by lia. by rewrite decide_True.
Qed.

Lemma py_index_outside {A} (l : list A) (i : Z) :
  (i < - Z.of_nat (length l) ∨ Z.of_nat (length l) ≤ i)%Z →
  py_index l i = None.
Proof. intros Hi. unfold py_index. by rewrite !decide_False by lia. Qed.

Lemma py_index_bound {A} (l : list A) (i : Z) (n : nat) :
  py_index l i = Some n → (n < length l)%nat.
Proof. unfold py_index. repeat case_decide; intros [= <-]; lia. Qed.

(** ** Module manager *)

(** X13: whatever the dialog input, [_add_cb] and [_delete_cb] keep the
    view and the profile in step: the view's list stays sorted and is a
    rearrangement of the profile's import list, as [_create_ui] sets it
    up. *)
Theorem module_list_stays_in_sync :
  (∀ profile_imports,
     ModuleManagerUi.in_sync (ModuleManagerUi._create_ui profile_imports)) ∧
  (∀ s, ModuleManagerUi.in_sync s →
     (∀ valid_python_identifier dialog,
        ModuleManagerUi.in_sync
          (snd (ModuleManagerUi._add_cb valid_python_identifier dialog s))) ∧
     (∀ index,
        ModuleManagerUi.in_sync (snd (ModuleManagerUi._delete_cb index s)))).
Proof.
  split.
  { intros l. unfold ModuleManagerUi.in_sync. simpl. apply sorted_spec. }
  intros s [Hsorted Hperm]. split.
  - intros valid [new [|]]; unfold ModuleManagerUi._add_cb; simpl; [|done].
    destruct (bool_decide (new ≠ "")); [|done].
    destruct (valid new); simpl; [|done].
    unfold ModuleManagerUi.in_sync. simpl. apply sorted_spec.
  - intros index. unfold ModuleManagerUi._delete_cb.
    case_decide; [|done].
    unfold py_delitem.
    destruct (py_index (ModuleManagerUi.stringList s) index) as [n|];
      simpl; [|done].
    split; [|done].
    eapply StronglySorted_sublist; [apply sublist_delete|done].
Qed.

Lemma module_list_stays_in_sync_witness :
  ModuleManagerUi.in_sync
    (snd (ModuleManagerUi._delete_cb 1
            (ModuleManagerUi._create_ui ["util"; "macros"; "curves"]))).
Proof.
  destruct module_list_stays_in_sync as [Hcreate Hkeep].
  apply (Hkeep (ModuleManagerUi._create_ui ["util"; "macros"; "curves"])).
  apply Hcreate.
Defined.

Lemma delete_cb_cases (s : ModuleManagerUi.state) (index : Z) :
  let l := ModuleManagerUi.stringList s in
  ((0 ≤ index < Z.of_nat (length l))%Z →
   ModuleManagerUi._delete_cb index s
   = (no_feedback,
      ModuleManagerUi.mkState (delete (Z.to_nat index) l)
                              (delete (Z.to_nat index) l)) ∧
   S (length (delete (Z.to_nat index) l)) = length l) ∧
  (index = Z.of_nat (length l) →
   ModuleManagerUi._delete_cb index s = (raised IndexError, s)) ∧
  ((index < 0 ∨ Z.of_nat (length l) < index)%Z →
   ModuleManagerUi._delete_cb index s = (no_feedback, s)).
Proof.
  intros l. unfold ModuleManagerUi._delete_cb, py_delitem. fold l.
  repeat split.
  - rewrite decide_True by lia. by rewrite py_index_inside by lia.
  - rewrite length_delete; [lia|]. apply lookup_lt_is_Some_2. lia.
  - intros ->. rewrite decide_True by lia.
    by rewrite py_index_outside by lia.
  - intros Hout. by rewrite decide_False by lia.
Qed.

(** X14: [_delete_cb] removes the entry at a row inside the list from the
    view and makes the result the profile's import list; without a
    selection (row -1) or beyond the end it does nothing; but its bounds
    test lets the row just past the end through, and that raises
    [IndexError]. *)
Theorem delete_cb_bounds (s : ModuleManagerUi.state) (index : Z) :
  let l := ModuleManagerUi.stringList s in
  ((0 ≤ index < Z.of_nat (length l))%Z →
   ModuleManagerUi._delete_cb index s
   = (no_feedback,
      ModuleManagerUi.mkState (delete (Z.to_nat index) l)
                              (delete (Z.to_nat index) l)) ∧
   S (length (delete (Z.to_nat index) l)) = length l) ∧
  (index = Z.of_nat (length l) →
   ModuleManagerUi._delete_cb index s = (raised IndexError, s)) ∧
  ((index < 0 ∨ Z.of_nat (length l) < index)%Z →
   ModuleManagerUi._delete_cb index s = (no_feedback, s)).
Proof. exact (delete_cb_cases s index). Qed.

Lemma delete_cb_bounds_witness :
  ModuleManagerUi._delete_cb 2 (ModuleManagerUi.mkState ["a"; "b"] ["b"; "a"])
  = (raised IndexError, ModuleManagerUi.mkState ["a"; "b"] ["b"; "a"]).
Proof.
  destruct (delete_cb_bounds
              (ModuleManagerUi.mkState ["a"; "b"] ["b"; "a"]) 2)
    as (_ & Hend & _).
  apply Hend. reflexivity.
Defined.

Lemma add_cb_cases (valid_python_identifier : string → bool)
    (new_import : string) (s : ModuleManagerUi.state) :
  (∀ text, ModuleManagerUi._add_cb valid_python_identifier (text, false) s
           = (no_feedback, s)) ∧
  ModuleManagerUi._add_cb valid_python_identifier ("", true) s
    = (no_feedback, s) ∧
  (new_import ≠ "" → valid_python_identifier new_import = false →
   ModuleManagerUi._add_cb valid_python_identifier (new_import, true) s
   = (display_error new_import, s)) ∧
  (new_import ≠ "" → valid_python_identifier new_import = true →
   ∃ s', ModuleManagerUi._add_cb valid_python_identifier (new_import, true) s
         = (no_feedback, s') ∧
     ModuleManagerUi.imports s'
       = (ModuleManagerUi.stringList s ++ [new_import])%list ∧
     ModuleManagerUi.stringList s' ≡ₚ new_import :: ModuleManagerUi.stringList s ∧
     StronglySorted string_le (ModuleManagerUi.stringList s')).
Proof.
  unfold ModuleManagerUi._add_cb. repeat split.
  - intros Hne Hinvalid. simpl.
    rewrite bool_decide_eq_true_2 by done. by rewrite Hinvalid.
  - intros Hne Hvalid. simpl.
    rewrite bool_decide_eq_true_2 by done. rewrite Hvalid. simpl.
    eexists. split; [done|]. simpl. split; [done|].
    destruct (sorted_spec (ModuleManagerUi.stringList s ++ [new_import]))
      as [Hsorted Hperm].
    split; [|done]. rewrite Hperm. by rewrite Permutation_app_comm.
Qed.

(** X15: [_add_cb] ignores a cancelled dialog and an empty name, shows the
    error for a name that is no Python identifier, and otherwise appends the
    name, also when it is already imported, to the list as the view shows
    it: the profile's import list becomes the view's previous list followed
    by the new name, and the view shows that list sorted. *)
Theorem add_cb_appends (valid_python_identifier : string → bool)
    (new_import : string) (s : ModuleManagerUi.state) :
  (∀ text, ModuleManagerUi._add_cb valid_python_identifier (text, false) s
           = (no_feedback, s)) ∧
  ModuleManagerUi._add_cb valid_python_identifier ("", true) s
    = (no_feedback, s) ∧
  (new_import ≠ "" → valid_python_identifier new_import = false →
   ModuleManagerUi._add_cb valid_python_identifier (new_import, true) s
   = (display_error new_import, s)) ∧
  (new_import ≠ "" → valid_python_identifier new_import = true →
   ∃ s', ModuleManagerUi._add_cb valid_python_identifier (new_import, true) s
         = (no_feedback, s') ∧
     ModuleManagerUi.imports s'
       = (ModuleManagerUi.stringList s ++ [new_import])%list ∧
     ModuleManagerUi.stringList s' ≡ₚ new_import :: ModuleManagerUi.stringList s ∧
     StronglySorted string_le (ModuleManagerUi.stringList s')).
Proof. exact (add_cb_cases valid_python_identifier new_import s). Qed.

Lemma add_cb_appends_witness :
  ∃ s', ModuleManagerUi._add_cb (λ _, true) ("curves", true)
          (ModuleManagerUi.mkState ["macros"; "util"] ["util"; "macros"])
        = (no_feedback, s') ∧
    ModuleManagerUi.imports s' = (["macros"; "util"] ++ ["curves"])%list ∧
    ModuleManagerUi.stringList s' ≡ₚ "curves" :: ["macros"; "util"] ∧
    StronglySorted string_le (ModuleManagerUi.stringList s').
Proof.
  destruct (add_cb_appends (λ _, true) "curves"
              (ModuleManagerUi.mkState ["macros"; "util"] ["util"; "macros"]))
    as (_ & _ & _ & Hadd).
  apply Hadd; [discriminate|reflexivity].
Defined.

(** X16: adding a module to a sorted view and then deleting the row at which
    it appears gives back the view's list, now also as the profile's import
    list. *)
Theorem add_then_delete_import (valid_python_identifier : string → bool)
    (new_import : string) (s : ModuleManagerUi.state) :
  StronglySorted string_le (ModuleManagerUi.stringList s) →
  new_import ≠ "" → valid_python_identifier new_import = true →
  ∃ s' index,
    ModuleManagerUi._add_cb valid_python_identifier (new_import, true) s
      = (no_feedback, s') ∧
    ModuleManagerUi.stringList s' !! Z.to_nat index = Some new_import ∧
    (0 ≤ index)%Z ∧
    ModuleManagerUi._delete_cb index s'
    = (no_feedback,
       ModuleManagerUi.mkState (ModuleManagerUi.stringList s)
                               (ModuleManagerUi.stringList s)).
Proof.
  intros Hsorted Hne Hvalid.
  destruct (add_cb_cases valid_python_identifier new_import s)
    as (_ & _ & _ & Hadd).
  destruct (Hadd Hne Hvalid) as (s' & Hrun & _ & Hperm & Hsorted').
  assert (new_import ∈ ModuleManagerUi.stringList s') as Hin
    by (rewrite Hperm; apply list_elem_of_here).
  apply list_elem_of_lookup in Hin as [n Hn].
  pose proof (lookup_lt_Some _ _ _ Hn) as Hlen.
  exists s', (Z.of_nat n). rewrite Nat2Z.id.
  split; [done|]. split; [done|]. split; [lia|].
  destruct (delete_cb_cases s' (Z.of_nat n)) as ([-> _] & _ & _); [lia|].
  rewrite Nat2Z.id.
  assert (delete n (ModuleManagerUi.stringList s')
          = ModuleManagerUi.stringList s) as ->; [|done].
  apply (StronglySorted_unique string_le).
  - eapply StronglySorted_sublist; [apply sublist_delete|done].
  - done.
  - apply (Permutation_cons_inv (a := new_import)).
    by rewrite <- (delete_Permutation _ _ _ Hn).
Qed.

Lemma add_then_delete_import_witness :
  ∃ s' index,
    ModuleManagerUi._add_cb (λ _, true) ("curves", true)
      (ModuleManagerUi.mkState ["macros"; "util"] ["util"; "macros"])
      = (no_feedback, s') ∧
    ModuleManagerUi.stringList s' !! Z.to_nat index = Some "curves" ∧
    (0 ≤ index)%Z ∧
    ModuleManagerUi._delete_cb index s'
    = (no_feedback, ModuleManagerUi.mkState ["macros"; "util"]
                                            ["macros"; "util"]).
Proof.
  apply (add_then_delete_import (λ _, true) "curves"
           (ModuleManagerUi.mkState ["macros"; "util"] ["util"; "macros"])).
  - repeat constructor.
  - discriminate.
  - reflexivity.
Defined.

(** ** Calibration dialog *)

Section CalibrationEvents.
Context {Widget InputType : Type} `{EqDecision InputType}.
Variable JoystickAxis : InputType.
Variable new_widget : Widget.
Variable set_current : Z → Widget → Widget.

Abbreviation state := (@CalibrationUi.state Widget).
Abbreviation event := (@CalibrationUi.event InputType).
Abbreviation handle := (CalibrationUi._handle_event JoystickAxis set_current).
Abbreviation concerns := (CalibrationUi.concerns JoystickAxis).

Implicit Types (s : state) (ev : event) (dev : CalibrationUi.joystick).

Lemma handle_foreign s ev dev :
  py_getitem (CalibrationUi.devices s) (CalibrationUi.current_selection_id s)
    = Some dev →
  ¬ concerns dev ev → handle ev s = (None, s).
Proof.
  intros Hdev Hforeign. unfold CalibrationUi._handle_event. rewrite Hdev.
  destruct (bool_decide _ && bool_decide _) eqn:Htest; [|done].
  apply andb_true_iff in Htest as [?%bool_decide_eq_true ?%bool_decide_eq_true].
  by destruct Hforeign.
Qed.

Lemma handle_keeps_selection s ev e s' :
  handle ev s = (e, s') →
  CalibrationUi.devices s' = CalibrationUi.devices s ∧
  CalibrationUi.current_selection_id s'
    = CalibrationUi.current_selection_id s ∧
  length (CalibrationUi.axes s') = length (CalibrationUi.axes s).
Proof.
  unfold CalibrationUi._handle_event.
  destruct (py_getitem _ _) as [dev|]; [|by intros [= <- <-]].
  destruct (_ && _); [|by intros [= <- <-]].
  destruct (py_index _ _) as [n|]; intros [= <- <-]; [|done].
  simpl. by rewrite length_alter.
Qed.

(** X17: after [_create_axes] for a device of the list there is one fresh
    widget per axis of that device, and every axis event of that device
    whose identifier lies between 1 and the number of axes is handled
    without exception and sets the current value of the widget at position
    identifier - 1, all other widgets staying as they are. *)
Theorem created_axes_receive_events s (index : Z) dev :
  py_getitem (CalibrationUi.devices s) index = Some dev →
  ∃ s1, CalibrationUi._create_axes new_widget index s = (None, s1) ∧
    CalibrationUi.devices s1 = CalibrationUi.devices s ∧
    CalibrationUi.current_selection_id s1 = index ∧
    CalibrationUi.axes s1
      = replicate (Z.to_nat (CalibrationUi.axes_count dev)) new_widget ∧
    ∀ ev, concerns dev ev →
      (1 ≤ CalibrationUi.identifier ev ≤ CalibrationUi.axes_count dev)%Z →
      handle ev s1
      = (None,
         CalibrationUi.mkState (CalibrationUi.devices s) index
           (<[Z.to_nat (CalibrationUi.identifier ev - 1) :=
                set_current (CalibrationUi.raw_value ev) new_widget]>
              (CalibrationUi.axes s1))).
Proof.
  intros Hdev. unfold CalibrationUi._create_axes. rewrite Hdev.
  eexists. split; [done|]. simpl. repeat split.
  intros ev [Hid Htype] Hrange. unfold CalibrationUi._handle_event. simpl.
  rewrite Hdev, !bool_decide_eq_true_2 by done. simpl.
  rewrite py_index_inside by (rewrite length_replicate; lia).
  do 2 f_equal. apply list_eq. intros i.
  set (n := Z.to_nat (CalibrationUi.identifier ev - 1)).
  assert (n < Z.to_nat (CalibrationUi.axes_count dev))%nat as Hn
    by (unfold n; lia).
  destruct (decide (i = n)) as [->|Hi].
  - rewrite list_lookup_alter, decide_True by done.
    rewrite list_lookup_insert_eq by (by rewrite length_replicate).
    by rewrite lookup_replicate_2.
  - rewrite list_lookup_alter_ne, list_lookup_insert_ne by done. done.
Qed.

(** X18: while a device of the list is selected, only the axis events of
    that device matter: leaving all other events out of a sequence of
    events changes neither the resulting widgets nor whether and where the
    handling raises. *)
Theorem foreign_events_are_ignored (evs : list event) s dev :
  py_getitem (CalibrationUi.devices s) (CalibrationUi.current_selection_id s)
    = Some dev →
  CalibrationUi.handle_events JoystickAxis set_current evs s
  = CalibrationUi.handle_events JoystickAxis set_current
      (filter (concerns dev) evs) s.
Proof.
  revert s. induction evs as [|ev evs IH]; intros s Hdev; [done|].
  rewrite filter_cons. destruct (decide (concerns dev ev)) as [Hev|Hev].
  - simpl. destruct (handle ev s) as [[e|] s'] eqn:Hrun; [done|].
    apply IH. apply handle_keeps_selection in Hrun as (-> & -> & _). done.
  - simpl. rewrite (handle_foreign s ev dev) by done. by apply IH.
Qed.

(** X19: the identifier of a concerned axis event is used as a Python list
    index after subtracting one: identifiers from 1 up to the number of
    widgets reach the widget at that position, identifier 0 and negative
    ones down to one minus the number of widgets count from the end (0
    reaches the last widget), and anything else raises [IndexError] and
    changes nothing. *)
Theorem axis_identifier_bounds s ev dev :
  py_getitem (CalibrationUi.devices s) (CalibrationUi.current_selection_id s)
    = Some dev →
  concerns dev ev →
  let n := Z.of_nat (length (CalibrationUi.axes s)) in
  let i := CalibrationUi.identifier ev in
  let update (k : Z) :=
    (None : option exn,
     CalibrationUi.mkState (CalibrationUi.devices s)
       (CalibrationUi.current_selection_id s)
       (alter (set_current (CalibrationUi.raw_value ev)) (Z.to_nat k)
              (CalibrationUi.axes s))) in
  ((1 ≤ i ≤ n)%Z → handle ev s = update (i - 1)%Z) ∧
  ((1 - n ≤ i ≤ 0)%Z → handle ev s = update (n + i - 1)%Z) ∧
  ((i < 1 - n ∨ n < i)%Z → handle ev s = (Some IndexError, s)).
Proof.
  intros Hdev [Hid Htype] n i update.
  unfold CalibrationUi._handle_event.
  rewrite Hdev, !bool_decide_eq_true_2 by done. simpl. fold i.
  repeat split.
  - intros Hi. by rewrite py_index_inside by (fold n; lia).
  - intros Hi. rewrite py_index_from_end by (fold n; lia). fold n.
    unfold update. do 4 f_equal. lia.
  - intros Hi. by rewrite py_index_outside by (fold n; lia).
Qed.

End CalibrationEvents.

Lemma created_axes_receive_events_witness :
  ∃ s1, CalibrationUi._create_axes 0%Z 1
          (CalibrationUi.mkState
             [CalibrationUi.mkJoystick 7 2; CalibrationUi.mkJoystick 9 3]
             0 []) = (None, s1) ∧
    CalibrationUi.devices s1
      = [CalibrationUi.mkJoystick 7 2; CalibrationUi.mkJoystick 9 3] ∧
    CalibrationUi.current_selection_id s1 = 1%Z ∧
    CalibrationUi.axes s1 = replicate (Z.to_nat 3) 0%Z ∧
    ∀ ev, CalibrationUi.concerns true (CalibrationUi.mkJoystick 9 3) ev →
      (1 ≤ CalibrationUi.identifier ev ≤ 3)%Z →
      CalibrationUi._handle_event true (λ v _, v) ev s1
      = (None,
         CalibrationUi.mkState
           [CalibrationUi.mkJoystick 7 2; CalibrationUi.mkJoystick 9 3] 1
           (<[Z.to_nat (CalibrationUi.identifier ev - 1) :=
                CalibrationUi.raw_value ev]> (CalibrationUi.axes s1))).
Proof.
  apply (created_axes_receive_events true 0%Z (λ v _, v)
           (CalibrationUi.mkState
              [CalibrationUi.mkJoystick 7 2; CalibrationUi.mkJoystick 9 3]
              0 []) 1 (CalibrationUi.mkJoystick 9 3)).
  reflexivity.
Defined.

Lemma foreign_events_are_ignored_witness :
  let s := CalibrationUi.mkState [CalibrationUi.mkJoystick 7 2] 0 [0; 0]%Z in
  let evs := [CalibrationUi.mkEvent 7 true 1 100;
              CalibrationUi.mkEvent 8 true 1 5;
              CalibrationUi.mkEvent 7 false 2 1;
              CalibrationUi.mkEvent 7 true 2 (-30)]%Z in
  CalibrationUi.handle_events true (λ v _, v) evs s
  = CalibrationUi.handle_events true (λ v _, v)
      (filter (CalibrationUi.concerns true (CalibrationUi.mkJoystick 7 2)) evs)
      s.
Proof.
  apply (foreign_events_are_ignored true (λ v _, v)). reflexivity.
Defined.

Lemma axis_identifier_bounds_witness :
  CalibrationUi._handle_event true (λ v _, v)
    (CalibrationUi.mkEvent 7 true 0 55)
    (CalibrationUi.mkState [CalibrationUi.mkJoystick 7 2] 0 [1; 2]%Z)
  = (None, CalibrationUi.mkState [CalibrationUi.mkJoystick 7 2] 0 [1; 55]%Z).
Proof.
  destruct (axis_identifier_bounds true (λ v _, v)
              (CalibrationUi.mkState [CalibrationUi.mkJoystick 7 2] 0 [1; 2]%Z)
              (CalibrationUi.mkEvent 7 true 0 55)
              (CalibrationUi.mkJoystick 7 2)) as (_ & Hend & _).
  - reflexivity.
  - split; reflexivity.
  - apply Hend. simpl. lia.
Defined.

(** ** Joystick selector *)

Section InsertLoop.
Context {E K V : Type} `{Countable K}.
Variable key : E → K.
Variable val : E → V.

Abbreviation insert_all l m :=
  (fold_left (λ (m : gmap K V) (e : E), <[key e := val e]> m) l m).

Lemma insert_all_other l m k :
  k ∉ key <$> l → insert_all l m !! k = m !! k.
Proof.
  revert m. induction l as [|e l IH]; intros m Hk; [done|].
  simpl in *. apply not_elem_of_cons in Hk as [Hke Hk].
  simpl. rewrite IH by done.
  by rewrite lookup_insert_ne.
Qed.

Lemma insert_all_sound l m k v :
  insert_all l m !! k = Some v →
  (∃ e, e ∈ l ∧ key e = k ∧ val e = v) ∨ m !! k = Some v.
Proof.
  revert m. induction l as [|e l IH]; intros m; [by right|].
  simpl. intros [(e' & He' & Hkv)|Hm]%IH.
  - left. exists e'. split; [by apply list_elem_of_further|done].
  - rewrite lookup_insert in Hm. case_decide as Hk.
    + left. exists e. split; [apply list_elem_of_here|]. split; congruence.
    + by right.
Qed.

Lemma insert_all_complete l m e :
  NoDup (key <$> l) → e ∈ l → insert_all l m !! key e = Some (val e).
Proof.
  revert m. induction l as [|x l IH]; intros m Hdup He;
    [by apply elem_of_nil in He|].
  simpl in Hdup. apply NoDup_cons in Hdup as [Hx Hdup].
  simpl. apply elem_of_cons in He as [->|He]; [|by apply IH].
  rewrite insert_all_other by done. by rewrite lookup_insert_eq.
Qed.

End InsertLoop.

Section SelectorMaps.
Import JoystickSelector.
Implicit Types (d : device) (l devices : list device).

Lemma insert_by_windows_id_perm d l : insert_by_windows_id d l ≡ₚ d :: l.
Proof.
  induction l as [|x l IH]; simpl; [done|]. case_decide; [done|].
  by rewrite IH, Permutation_swap.
Qed.

Lemma sorted_by_windows_id_perm devices :
  sorted_by_windows_id devices ≡ₚ devices.
Proof.
  induction devices as [|d l IH]; simpl; [done|].
  by rewrite insert_by_windows_id_perm, IH.
Qed.

(** The device with the strictly smallest [windows_id] sorts first. *)
Lemma sorted_by_windows_id_head devices d :
  d ∈ devices →
  (∀ d', d' ∈ devices → d' = d ∨ (windows_id d < windows_id d')%Z) →
  sorted_by_windows_id devices !! 0%nat = Some d.
Proof.
  induction devices as [|x l IH]; intros Hd Hmin;
    [by apply elem_of_nil in Hd|].
  simpl. destruct (Hmin x) as [->|Hx]; [apply list_elem_of_here| |].
  - destruct (sorted_by_windows_id l) as [|y rest] eqn:Hsorted; [done|].
    simpl. rewrite decide_True; [done|].
    assert (y ∈ l) as Hy.
    { rewrite <- (sorted_by_windows_id_perm l), Hsorted.
      apply list_elem_of_here. }
    destruct (Hmin y) as [->|?]; [by apply list_elem_of_further|lia|lia].
  - apply elem_of_cons in Hd as [->|Hd]; [lia|].
    assert (sorted_by_windows_id l !! 0%nat = Some d) as Hhead.
    { apply IH; [done|]. intros d' Hd'. apply Hmin.
      by apply list_elem_of_further. }
    destruct (sorted_by_windows_id l) as [|y rest]; [done|].
    simpl in Hhead. injection Hhead as ->. simpl.
    rewrite decide_False; [done|lia].
Qed.

Lemma index_maps_split (entries : list (nat * device))
    (m1 : gmap Z nat) (m2 : gmap nat Z) :
  fold_left (λ maps entry,
               (<[device_id entry.2 := entry.1]> maps.1,
                <[entry.1 := device_id entry.2]> maps.2))
            entries (m1, m2)
  = (fold_left (λ m e, <[device_id e.2 := e.1]> m) entries m1,
     fold_left (λ m e, <[e.1 := device_id e.2]> m) entries m2).
Proof.
  revert m1 m2. induction entries as [|e l IH]; intros m1 m2; [done|].
  simpl. by rewrite IH.
Qed.

Lemma elem_of_enumerate l (e : nat * device) :
  e ∈ imap pair l ↔ l !! e.1 = Some e.2.
Proof.
  rewrite list_elem_of_lookup. split.
  - intros [i Hi]. rewrite list_lookup_imap in Hi.
    destruct (l !! i) as [d|] eqn:Hd; simplify_eq/=. done.
  - intros He. exists e.1. rewrite list_lookup_imap, He. by destruct e.
Qed.

Lemma enumerate_indices l : fst <$> imap pair l = seq 0 (length l).
Proof.
  apply list_eq. intros i. rewrite list_lookup_fmap, list_lookup_imap.
  destruct (l !! i) as [d|] eqn:Hd; simpl.
  - symmetry. apply lookup_seq. split; [done|]. by eapply lookup_lt_Some.
  - symmetry. apply lookup_seq_ge. by apply lookup_ge_None.
Qed.

Lemma enumerate_ids l :
  (λ e : nat * device, device_id e.2) <$> imap pair l = device_id <$> l.
Proof.
  apply list_eq. intros i. rewrite !list_lookup_fmap, list_lookup_imap.
  by destruct (l !! i).
Qed.

Lemma index_maps_spec devices :
  let sorted := sorted_by_windows_id devices in
  let maps := index_maps devices in
  (∀ i, maps.2 !! i = device_id <$> sorted !! i) ∧
  (∀ id i, maps.1 !! id = Some i → maps.2 !! i = Some id) ∧
  (NoDup (device_id <$> devices) →
   ∀ id i, maps.2 !! i = Some id → maps.1 !! id = Some i).
Proof.
  intros sorted maps. unfold maps, index_maps. fold sorted.
  rewrite index_maps_split. simpl.
  assert (∀ i, fold_left (λ m (e : nat * device), <[e.1 := device_id e.2]> m)
                 (imap pair sorted) (∅ : gmap nat Z) !! i
               = device_id <$> sorted !! i) as Hto_id.
  { intros i. destruct (sorted !! i) as [d|] eqn:Hd; simpl.
    - apply (insert_all_complete fst (λ e : nat * device, device_id e.2)
               _ _ (i, d)).
      + rewrite enumerate_indices. apply NoDup_seq.
      + by apply elem_of_enumerate.
    - destruct (fold_left _ _ _ !! i) as [v|] eqn:Hv; [|done].
      apply (insert_all_sound fst (λ e : nat * device, device_id e.2))
        in Hv as [(e & He & <- & _)|Hv]; [|done].
      apply elem_of_enumerate in He. congruence. }
  split; [done|]. split.
  - intros id i Hi. rewrite Hto_id.
    apply (insert_all_sound (λ e : nat * device, device_id e.2) fst)
      in Hi as [(e & He & <- & <-)|Hi]; [|done].
    apply elem_of_enumerate in He. by rewrite He.
  - intros Hdup id i Hi. rewrite Hto_id in Hi.
    destruct (sorted !! i) as [d|] eqn:Hd; simplify_eq/=.
    apply (insert_all_complete (λ e : nat * device, device_id e.2) fst
             _ _ (i, d)).
    + rewrite enumerate_ids. unfold sorted.
      by rewrite sorted_by_windows_id_perm.
    + by apply elem_of_enumerate.
Qed.

(** X20: the two maps the selector builds are each other's inverse: the
    index map gives for every position of the sorted device list the id of
    the device there; an id mapped to a position is found back at that
    position; and when the ids of the devices are distinct, the id found at
    a position is mapped to that position. *)
Theorem index_maps_inverse devices :
  let sorted := sorted_by_windows_id devices in
  let maps := index_maps devices in
  (∀ i, maps.2 !! i = device_id <$> sorted !! i) ∧
  (∀ id i, maps.1 !! id = Some i → maps.2 !! i = Some id) ∧
  (NoDup (device_id <$> devices) →
   ∀ id i, maps.2 !! i = Some id → maps.1 !! id = Some i).
Proof. exact (index_maps_spec devices). Qed.

End SelectorMaps.

Lemma index_maps_inverse_witness :
  let devices := [JoystickSelector.mkDevice 5 71;
                  JoystickSelector.mkDevice 2 93] in
  let sorted := JoystickSelector.sorted_by_windows_id devices in
  let maps := JoystickSelector.index_maps devices in
  (∀ i, maps.2 !! i = JoystickSelector.device_id <$> sorted !! i) ∧
  (∀ id i, maps.1 !! id = Some i → maps.2 !! i = Some id) ∧
  (NoDup (JoystickSelector.device_id <$> devices) →
   ∀ id i, maps.2 !! i = Some id → maps.1 !! id = Some i).
Proof.
  apply (index_maps_inverse [JoystickSelector.mkDevice 5 71;
                             JoystickSelector.mkDevice 2 93]).
Defined.

Section SelectorGate.
Import JoystickSelector.
Context {Widgets : Type}.
Variable show_input : nat → string → Z → Widgets → Widgets.

(** X21: [set_selection] returns without touching the selector for the
    device id [None] or 0, for an id no device has, and, the ids being
    distinct, for the device that sorts first by [windows_id] (the one with
    the strictly smallest [windows_id], or whichever the sort puts first
    among equal ones); for a device at a later position of the sorted list
    (with an id other than 0) it shows the input at that position. *)
Theorem first_device_is_never_selected (devices : list device)
    (w : Widgets) (input_type : UiInputType) (input_id : Z) :
  let s := __init__ devices w in
  let select := λ id, set_selection show_input input_type id input_id s in
  select None = s ∧
  select (Some 0%Z) = s ∧
  (∀ id, id ∉ device_id <$> devices → select (Some id) = s) ∧
  (NoDup (device_id <$> devices) →
   (∀ d, d ∈ devices →
      (∀ d', d' ∈ devices → d' = d ∨ (windows_id d < windows_id d')%Z) →
      select (Some (device_id d)) = s) ∧
   (∀ k d, sorted_by_windows_id devices !! S k = Some d →
      device_id d ≠ 0%Z →
      select (Some (device_id d))
      = mkSelector (index_maps devices).1 (index_maps devices).2
          (show_input (S k) (type_to_name_map input_type) input_id w)) ∧
   (∀ d, sorted_by_windows_id devices !! 0%nat = Some d →
      select (Some (device_id d)) = s)).
Proof.
  intros s select.
  destruct (index_maps_spec devices) as (Hto_id & Hsound & Hcomplete).
  assert (∀ id, (index_maps devices).1 !! id = None → select (Some id) = s)
    as Hunknown.
  { intros id Hid. unfold select, set_selection. simpl. rewrite Hid. simpl.
    repeat case_decide; done. }
  split; [|split; [|split; [|intros Hdup; split; [|split]]]].
  - unfold select, set_selection. simpl. repeat case_decide; done.
  - unfold select, set_selection. simpl. repeat case_decide; done.
  - intros id Hid. apply Hunknown.
    destruct ((index_maps devices).1 !! id) as [i|] eqn:Hi; [|done].
    apply Hsound in Hi. rewrite Hto_id in Hi.
    destruct (sorted_by_windows_id devices !! i) as [d|] eqn:Hd;
      simplify_eq/=.
    destruct Hid. apply list_elem_of_fmap. exists d. split; [done|].
    rewrite <- (sorted_by_windows_id_perm devices).
    by eapply list_elem_of_lookup_2.
  - intros d Hd Hmin.
    pose proof (sorted_by_windows_id_head devices d Hd Hmin) as Hhead.
    assert ((index_maps devices).1 !! device_id d = Some 0%nat) as Hzero.
    { apply Hcomplete; [done|]. by rewrite Hto_id, Hhead. }
    unfold select, set_selection. simpl. rewrite Hzero. simpl.
    repeat case_decide; done.
  - intros k d Hk Hid.
    assert ((index_maps devices).1 !! device_id d = Some (S k)) as Hpos.
    { apply Hcomplete; [done|]. by rewrite Hto_id, Hk. }
    unfold select, set_selection. simpl. rewrite Hpos. simpl.
    repeat case_decide; by simplify_eq.
  - intros d Hd.
    assert ((index_maps devices).1 !! device_id d = Some 0%nat) as Hzero.
    { apply Hcomplete; [done|]. by rewrite Hto_id, Hd. }
    unfold select, set_selection. simpl. rewrite Hzero. simpl.
    repeat case_decide; done.
Qed.

End SelectorGate.

Lemma first_device_is_never_selected_witness :
  let devices := [JoystickSelector.mkDevice 5 71;
                  JoystickSelector.mkDevice 2 93] in
  let s := JoystickSelector.__init__ devices ([] : list (nat * string * Z)) in
  JoystickSelector.set_selection (λ k n i w, (k, n, i) :: w)
    JoystickSelector.JoystickAxis (Some 93%Z) 1 s = s ∧
  JoystickSelector.set_selection (λ k n i w, (k, n, i) :: w)
    JoystickSelector.JoystickAxis (Some 71%Z) 1 s
  = JoystickSelector.mkSelector
      (JoystickSelector.index_maps devices).1
      (JoystickSelector.index_maps devices).2 [(1%nat, "Axis", 1%Z)].
Proof.
  destruct (first_device_is_never_selected (λ k n i w, (k, n, i) :: w)
              [JoystickSelector.mkDevice 5 71; JoystickSelector.mkDevice 2 93]
              [] JoystickSelector.JoystickAxis 1)
    as (_ & _ & _ & Hdistinct).
  destruct Hdistinct as (Hfirst & Hlater & _).
  { apply (bool_decide_unpack _). vm_compute. exact I. }
  split.
  - apply (Hfirst (JoystickSelector.mkDevice 2 93)).
    + apply list_elem_of_further, list_elem_of_here.
    + intros d' Hd'. apply list_elem_of_In in Hd'. simpl in Hd'.
      destruct Hd' as [<-|[<-|[]]]; [right; simpl; lia|by left].
  - apply (Hlater 0%nat (JoystickSelector.mkDevice 5 71)); [reflexivity|].
    simpl. lia.
Defined.

(** ** Chains after a delete *)

Lemma chain_of_delete (t : gmap string (option string)) (old : string) :
  acyclic t →
  let t' := delete old (rewrite_pointer old (t !! old ≫= id) <$> t) in
  ∀ x chain, chain_of t x chain →
    (x ≠ old → chain_of t' x (filter (λ n, n ≠ old) chain)) ∧
    (x = old → ∀ z, t !! old = Some (Some z) →
       chain_of t' z (filter (λ n, n ≠ old) chain)).
Proof.
  intros Hac t'.
  assert (∀ x w, x ≠ old → t !! x = Some w →
            t' !! x = Some (rewrite_pointer old (t !! old ≫= id) w)) as Hlook.
  { intros x w Hx Hw. unfold t'. rewrite lookup_reparented.
    rewrite decide_False by done. by rewrite Hw. }
  induction 1 as [x Hx|x y rest Hx Hy [IHother IHold]].
  - split; [|intros -> z Hz; congruence].
    intros Hxo. rewrite filter_cons, decide_True by done.
    apply chain_root. rewrite (Hlook x None) by done.
    unfold rewrite_pointer. by rewrite decide_False.
  - split.
    + intros Hxo. rewrite filter_cons, decide_True by done.
      destruct (decide (y = old)) as [->|Hyo].
      * destruct (t !! old) as [[z|]|] eqn:Hold.
        -- apply chain_step with z; [|by apply IHold].
           rewrite (Hlook x (Some old)) by done.
           unfold rewrite_pointer. by rewrite decide_True.
        -- assert (rest = [old]) as ->
             by (eapply chain_of_functional; [done|by apply chain_root]).
           rewrite filter_cons, decide_False by (by intros ?).
           apply chain_root. rewrite (Hlook x (Some old)) by done.
           unfold rewrite_pointer. by rewrite decide_True.
        -- inversion Hy; congruence.
      * apply chain_step with y; [|by apply IHother].
        rewrite (Hlook x (Some y)) by done.
        unfold rewrite_pointer. rewrite decide_False; [done|congruence].
    + intros -> z Hz. rewrite filter_cons, decide_False by (by intros ?).
      assert (z = y) as -> by congruence.
      apply IHother. intros ->. by apply (acyclic_no_self_loop t old).
Qed.

(** X22: after a successful [_delete_mode M] on a valid profile, the chain
    of every remaining mode on every device is its chain before with [M]
    left out, the other modes keeping their order. *)
Theorem delete_mode_shortens_chains {Config : Type} (p : Profile Config)
    (M : string) :
  valid_profile p →
  Forall (λ d, is_Some (modes d !! M)) (devices p) →
  ∃ p', snd (_delete_mode M p) = p' ∧
    length (devices p') = length (devices p) ∧
    ∀ i d, devices p !! i = Some d →
      ∃ d', devices p' !! i = Some d' ∧
        ∀ x, x ≠ M → is_Some (modes d !! x) →
          ∃ chain, (length chain ≤ size (modes d))%nat ∧
            ∀ fuel, (length chain ≤ fuel)%nat →
              resolve_chain fuel (modes d) x = Some (inr chain) ∧
              resolve_chain fuel (modes d') x
              = Some (inr (filter (λ n, n ≠ M) chain)).
Proof.
  intros [Hmir Hval] Hall. eexists. split; [done|].
  assert (devices p = [] ∨ ∃ d0 rest, devices p = d0 :: rest)
    as [Hds|(d0 & rest & Hds)] by (destruct (devices p); eauto).
  { unfold _delete_mode. rewrite Hds. simpl. split; [by rewrite Hds|].
    intros i d. by rewrite ?Hds. }
  rewrite (delete_success M p d0 rest) by done. simpl.
  split; [by rewrite length_fmap|].
  rewrite Forall_forall in Hval. intros i d Hi.
  assert (d ∈ devices p) as Hd by (by eapply list_elem_of_lookup_2).
  assert (d0 ∈ devices p) as Hd0 by (rewrite Hds; apply list_elem_of_here).
  destruct (Hval d Hd) as (Hk & Hcl & Hac).
  set (v := parent_of_deleted (modes d0) M).
  assert (v = inherit_table d !! M ≫= id) as Hv.
  { unfold v. rewrite parent_of_deleted_table by apply (Hval d0 Hd0).
    by rewrite (Hmir d0 d). }
  exists (removed M v d). split; [by rewrite list_lookup_fmap, Hi|].
  intros x Hx Hin. apply has_mode_table in Hin.
  destruct (chain_exists _ x Hcl Hac Hin) as (chain & Hchain & Hlen).
  exists chain. split.
  { unfold inherit_table in Hlen. by rewrite map_size_fmap in Hlen. }
  intros fuel Hfuel. split; [by apply resolve_chain_complete|].
  apply resolve_chain_complete.
  - fold (inherit_table (removed M v d)). rewrite removed_table, Hv.
    destruct (chain_of_delete _ M Hac x chain Hchain) as [Hother _].
    by apply Hother.
  - etrans; [apply length_filter|done].
Qed.

Lemma delete_mode_shortens_chains_witness :
  ∃ p', snd (_delete_mode "radio" Examples.manual_profile) = p' ∧
    length (devices p') = length (devices Examples.manual_profile) ∧
    ∀ i d, devices Examples.manual_profile !! i = Some d →
      ∃ d', devices p' !! i = Some d' ∧
        ∀ x, x ≠ "radio" → is_Some (modes d !! x) →
          ∃ chain, (length chain ≤ size (modes d))%nat ∧
            ∀ fuel, (length chain ≤ fuel)%nat →
              resolve_chain fuel (modes d) x = Some (inr chain) ∧
              resolve_chain fuel (modes d') x
              = Some (inr (filter (λ n, n ≠ "radio") chain)).
Proof.
  apply (delete_mode_shortens_chains Examples.manual_profile "radio").
  - apply check_profile_sound. vm_compute. reflexivity.
  - apply (bool_decide_unpack _). vm_compute. exact I.
Defined.
